(** * A telnet login probe: the option-aware and the plain-line variant

    Shallow embedding of the two probe packages of the repository:
    - package [telnet] (the option-aware variant: [handleIAC],
      [readUntilAny], [sendLine], [Run]);
    - package [ssh] in [main.go] (the plain-line variant: [Run] over a
      [bufio.Reader]).

    Go strings and byte slices are lists of bytes.  A connection is a
    record holding the outcomes its future [Read] calls will have, a log
    of the payloads passed to [Write], and the few settings the code
    touches.  Functions that read or write take the connection and give
    back the connection they leave behind. *)

From Stdlib Require Import List ZArith Bool Lia String Ascii Arith.
From Stdlib Require Import Strings.Byte DecimalString.
Import ListNotations.

Set Implicit Arguments.

(* ================================================================== *)
(** * The parts of the Go library the programs use                     *)
(* ================================================================== *)

Module Go.

(** A Go [string] (and a [[]byte]) is a sequence of bytes. *)
Definition gostring := list byte.

Definition str (s : string) : gostring := list_byte_of_string s.

Definition byte_eqb (a b : byte) : bool := Byte.eqb a b.

(** [strings.HasPrefix]. *)
Fixpoint HasPrefix (s prefix : gostring) {struct prefix} : bool :=
  match prefix, s with
  | [], _ => true
  | _ :: _, [] => false
  | p :: prefix', c :: s' => byte_eqb c p && HasPrefix s' prefix'
  end.

(** [strings.Contains] and [bytes.Contains]: [substr] occurs somewhere in
    [s]; the empty string occurs in every string. *)
Fixpoint Contains (s substr : gostring) : bool :=
  HasPrefix s substr ||
  match s with
  | [] => false
  | _ :: s' => Contains s' substr
  end.

(** [a == b] at strings. *)
Definition string_eqb (a b : gostring) : bool :=
  if list_eq_dec byte_eq_dec a b then true else false.

(** The [error] interface.  [ErrNew] stands for an error value made
    outside the programs (by the transport or by the configuration
    decoder); [Errorf msg] is what [fmt.Errorf] returns for a format
    without a [%w] verb, [ErrorfW msg err] for a format with one: the
    formatted message and the wrapped error. *)
Inductive error : Type :=
| ErrNew (msg : gostring)
| Errorf (msg : gostring)
| ErrorfW (msg : gostring) (wrapped : error).

(** [err.Error()]. *)
Definition Error (e : error) : gostring :=
  match e with
  | ErrNew msg => msg
  | Errorf msg => msg
  | ErrorfW msg _ => msg
  end.

(** [errors.Unwrap]. *)
Definition Unwrap (e : error) : option error :=
  match e with
  | ErrorfW _ w => Some w
  | _ => None
  end.

(** [strings.Join]. *)
Fixpoint Join (elems : list gostring) (sep : gostring) : gostring :=
  match elems with
  | [] => []
  | [e] => e
  | e :: rest => e ++ sep ++ Join rest sep
  end.

(** The [%v] verb of package [fmt] at a [[]string]: the elements
    separated by one space, in square brackets. *)
Definition fmt_v (l : list gostring) : gostring :=
  str "[" ++ Join l (str " ") ++ str "]".

(** [strconv.Itoa], and the [%d] verb at an [int]. *)
Definition Itoa (i : Z) : gostring :=
  str (NilZero.string_of_int (Z.to_int i)).

(** [net.JoinHostPort]: the host is bracketed when it holds a colon. *)
Definition JoinHostPort (host port : gostring) : gostring :=
  if existsb (fun c => byte_eqb c ":"%byte) host
  then str "[" ++ host ++ str "]:" ++ port
  else host ++ str ":" ++ port.

(** ** [strings.TrimSpace]

    White space is what [unicode.IsSpace] accepts.  A Go string is
    UTF-8; the white space code points and their encodings are
    U+0009..U+000D and U+0020 (one byte), U+0085 and U+00A0 (C2 85,
    C2 A0), U+1680 (E1 9A 80), U+2000..U+200A (E2 80 80 .. E2 80 8A),
    U+2028, U+2029, U+202F (E2 80 A8, E2 80 A9, E2 80 AF), U+205F
    (E2 81 9F) and U+3000 (E3 80 80).  A byte that starts no valid
    encoding decodes to U+FFFD, which is not white space. *)

Definition asciiSpace (c : byte) : bool :=
  match c with
  | x09 | x0a | x0b | x0c | x0d | x20 => true
  | _ => false
  end.

Definition isSpace2 (c1 c2 : byte) : bool :=
  match c1, c2 with
  | xc2, x85 | xc2, xa0 => true
  | _, _ => false
  end.

Definition isSpace3 (c1 c2 c3 : byte) : bool :=
  match c1, c2, c3 with
  | xe1, x9a, x80 => true
  | xe2, x80, (x80 | x81 | x82 | x83 | x84 | x85 | x86 | x87
               | x88 | x89 | x8a | xa8 | xa9 | xaf) => true
  | xe2, x81, x9f => true
  | xe3, x80, x80 => true
  | _, _, _ => false
  end.

(** Drop the leading white space: [strings.TrimLeftFunc s unicode.IsSpace]. *)
Fixpoint TrimLeftSpace (s : gostring) : gostring :=
  match s with
  | [] => []
  | c1 :: s1 =>
    if asciiSpace c1 then TrimLeftSpace s1
    else
      match s1 with
      | [] => s
      | c2 :: s2 =>
        if isSpace2 c1 c2 then TrimLeftSpace s2
        else
          match s2 with
          | [] => s
          | c3 :: s3 => if isSpace3 c1 c2 c3 then TrimLeftSpace s3 else s
          end
      end
  end.

(** The same from the end, on the reversed string (the last byte comes
    first): [strings.TrimRightFunc s unicode.IsSpace], reversed. *)
Fixpoint TrimLeftSpaceRev (r : gostring) : gostring :=
  match r with
  | [] => []
  | c1 :: r1 =>
    if asciiSpace c1 then TrimLeftSpaceRev r1
    else
      match r1 with
      | [] => r
      | c2 :: r2 =>
        if isSpace2 c2 c1 then TrimLeftSpaceRev r2
        else
          match r2 with
          | [] => r
          | c3 :: r3 => if isSpace3 c3 c2 c1 then TrimLeftSpaceRev r3 else r
          end
      end
  end.

Definition TrimRightSpace (s : gostring) : gostring :=
  rev (TrimLeftSpaceRev (rev s)).

Definition TrimSpace (s : gostring) : gostring :=
  TrimRightSpace (TrimLeftSpace s).

(** [context.Context], as far as the programs look at it: the deadline
    [ctx.Deadline()] reports, if there is one. *)
Record Context : Type := { ctx_deadline : option Z }.

End Go.

(* ================================================================== *)
(** * Package telnet: the option-aware variant                         *)
(* ================================================================== *)

Module Telnet.
Import Go.

Definition IAC  : byte := xff.
Definition WILL : byte := xfb.
Definition WONT : byte := xfc.
Definition DO   : byte := xfd.
Definition DONT : byte := xfe.
Definition SB   : byte := xfa.
Definition SE   : byte := xf0.

Record Schema : Type := {
  Server : gostring;
  Port : Z;
  Username : gostring;
  Password : gostring;
  Command : gostring;
  ExpectedOutput : gostring
}.

(** ** The connection

    Every read of the package passes a slice of length one, so one
    [Read] outcome is: a byte or none ([n = 1] or [n = 0]) and an error
    or none.  [rd] lists the outcomes of the reads to come, in order;
    once they are used up the connection is at its end and every further
    read gives no byte and the error [rd_end] (end of file, or the
    deadline passed).  [wr] lists the errors of the writes to come
    ([None]: the write succeeds; also when the list is used up), and
    [wlog] is the log of the payloads passed to [Write], oldest
    first. *)
Record ReadEv : Type := { ev_byte : option byte; ev_err : option error }.

Record Conn : Type := {
  rd : list ReadEv;
  rd_end : error;
  wr : list (option error);
  wlog : list gostring;
  deadline : option Z;
  closed : bool
}.

Definition set_rd (c : Conn) (l : list ReadEv) : Conn :=
  {| rd := l; rd_end := rd_end c; wr := wr c; wlog := wlog c;
     deadline := deadline c; closed := closed c |}.

(** The usual outcomes: a byte and no error, no byte and an error, and
    a byte together with an error. *)
Definition delivered (b : byte) : ReadEv :=
  {| ev_byte := Some b; ev_err := None |}.

Definition failed (e : error) : ReadEv :=
  {| ev_byte := None; ev_err := Some e |}.

Definition delivered_failing (b : byte) (e : error) : ReadEv :=
  {| ev_byte := Some b; ev_err := Some e |}.

(** [conn.Read(p)] for a slice [p] of length one whose byte is [p0]:
    the connection left, the byte of the slice afterwards (unchanged
    when nothing was read), [n] and [err]. *)
Definition Read (c : Conn) (p0 : byte) : Conn * byte * nat * option error :=
  match rd c with
  | [] => (c, p0, 0, Some (rd_end c))
  | ev :: rest =>
    match ev_byte ev with
    | Some b => (set_rd c rest, b, 1, ev_err ev)
    | None => (set_rd c rest, p0, 0, ev_err ev)
    end
  end.

(** [conn.Write(p)]: the connection left and [err]. *)
Definition Write (c : Conn) (p : gostring) : Conn * option error :=
  ({| rd := rd c; rd_end := rd_end c; wr := tl (wr c);
      wlog := wlog c ++ [p]; deadline := deadline c; closed := closed c |},
   hd None (wr c)).

Definition SetDeadline (c : Conn) (t : Z) : Conn :=
  {| rd := rd c; rd_end := rd_end c; wr := wr c; wlog := wlog c;
     deadline := Some t; closed := closed c |}.

Definition Close (c : Conn) : Conn :=
  {| rd := rd c; rd_end := rd_end c; wr := wr c; wlog := wlog c;
     deadline := deadline c; closed := true |}.

(** ** handleIAC *)

(** The loop of the [SB] case, which reads into the one slice [one]
    until [IAC SE]: [Some c] when it ends (by [break] or by a [return
    true], which the caller does not tell apart), [None] when [fuel]
    iterations were not enough. *)
Fixpoint handleIAC_sb (fuel : nat) (conn : Conn) (one : byte) : option Conn :=
  match fuel with
  | O => None
  | S fuel' =>
    let '(conn, one, _, err) := Read conn one in
    match err with
    | Some _ => Some conn
    | None =>
      if byte_eqb one IAC then
        let '(conn, one, _, err) := Read conn one in
        match err with
        | Some _ => Some conn
        | None =>
          if byte_eqb one SE then Some conn
          else handleIAC_sb fuel' conn one
        end
      else handleIAC_sb fuel' conn one
    end
  end.

(** [handleIAC conn firstByte]: the connection left, and whether an IAC
    was handled.  Every iteration of the [SB] loop uses up an outcome of
    [rd] or meets the end of the connection, so [S (length (rd conn))]
    iterations are enough (lemma [handleIAC_sb_total]). *)
Definition handleIAC (conn : Conn) (firstByte : byte) : Conn * bool :=
  if negb (byte_eqb firstByte IAC) then (conn, false)
  else
    let '(conn, cmd, _, err) := Read conn x00 in
    match err with
    | Some _ => (conn, true)
    | None =>
      if byte_eqb cmd DO then
        let '(conn, opt, _, _) := Read conn x00 in
        let '(conn, _) := Write conn [IAC; WONT; opt] in
        (conn, true)
      else if byte_eqb cmd WILL then
        let '(conn, opt, _, _) := Read conn x00 in
        let '(conn, _) := Write conn [IAC; DONT; opt] in
        (conn, true)
      else if byte_eqb cmd WONT || byte_eqb cmd DONT then
        let '(conn, _, _, _) := Read conn x00 in
        (conn, true)
      else if byte_eqb cmd SB then
        match handleIAC_sb (S (List.length (rd conn))) conn x00 with
        | Some conn => (conn, true)
        | None => (conn, true)
        end
      else (conn, true)
    end.

(** ** readUntilAny *)

(** [for _, t := range targets { if strings.Contains(s, t) { return } }]:
    the target at which the loop returns. *)
Definition firstContained (s : gostring) (targets : list gostring)
  : option gostring :=
  find (fun t => Contains s t) targets.

Definition readError (targets : list gostring) (err : error) : error :=
  ErrorfW (str "read error waiting for " ++ fmt_v targets ++ str ": "
           ++ Error err) err.

(** The loop of [readUntilAny] with [buf] the content of the buffer:
    [Some (conn, s, err)] when it returns [s, err], [None] when [fuel]
    iterations were not enough.  The slice [one] is read only after a
    read that has filled it, so it is not carried along. *)
Fixpoint readUntilAny_loop (fuel : nat) (conn : Conn)
    (targets : list gostring) (buf : gostring)
  : option (Conn * gostring * option error) :=
  match fuel with
  | O => None
  | S fuel' =>
    let '(conn, one, n, err) := Read conn x00 in
    if 0 <? n then
      let '(conn, handled) := handleIAC conn one in
      if handled then readUntilAny_loop fuel' conn targets buf
      else
        let s := buf ++ [one] in
        match firstContained s targets with
        | Some _ => Some (conn, s, None)
        | None =>
          match err with
          | Some e => Some (conn, s, Some (readError targets e))
          | None => readUntilAny_loop fuel' conn targets s
          end
        end
    else
      match err with
      | Some e => Some (conn, buf, Some (readError targets e))
      | None => readUntilAny_loop fuel' conn targets buf
      end
  end.

(** [readUntilAny conn targets]: the connection left, the string and the
    error returned.  Every iteration uses up an outcome of [rd] or
    returns, so [S (length (rd conn))] iterations are enough (lemma
    [readUntilAny_total]). *)
Definition readUntilAny (conn : Conn) (targets : list gostring)
  : Conn * gostring * option error :=
  match readUntilAny_loop (S (List.length (rd conn))) conn targets [] with
  | Some r => r
  | None => (conn, [], None)
  end.

(** [sendLine] writes a string followed by a telnet newline. *)
Definition sendLine (conn : Conn) (line : gostring) : Conn * option error :=
  Write conn (line ++ [x0d; x0a]).

(** What a function leaves of a connection when it only reads and
    writes: the reads to come are used up from the front, the log grows
    by the payloads [w], nothing else changes. *)
Record advances (c c' : Conn) (w : list gostring) : Prop := {
  adv_rd : exists used, rd c = used ++ rd c';
  adv_end : rd_end c' = rd_end c;
  adv_wr : wr c' = skipn (List.length w) (wr c);
  adv_wlog : wlog c' = wlog c ++ w;
  adv_deadline : deadline c' = deadline c;
  adv_closed : closed c' = closed c
}.

(** [conn] with the reads to come replaced: the bytes [bs], each
    delivered by a read without error, then the outcomes [rest]. *)
Definition pending (conn : Conn) (bs : list byte) (rest : list ReadEv)
  : Conn :=
  set_rd conn (map delivered bs ++ rest).

(** A connection just opened, on which nothing was written yet: the
    peer will bring the outcomes [l] and then close ([io.EOF]). *)
Definition fresh (l : list ReadEv) : Conn :=
  {| rd := l; rd_end := ErrNew (str "EOF"); wr := []; wlog := [];
     deadline := None; closed := false |}.

(** The payloads the filter writes. *)
Definition refusal (p : gostring) : Prop :=
  exists x, p = [IAC; WONT; x] \/ p = [IAC; DONT; x].

(** From [c] to [c'] the log has grown by payloads that all satisfy
    [P]. *)
Definition writes_only (P : gostring -> Prop) (c c' : Conn) : Prop :=
  exists w, wlog c' = wlog c ++ w /\ Forall P w.

(** The payloads [Run] may write for a configuration: the refusals of
    the filter, the user name line and the command line. *)
Definition probe_payload (conf : Schema) (p : gostring) : Prop :=
  refusal p \/ p = Username conf ++ [x0d; x0a]
  \/ p = Command conf ++ [x0d; x0a].

(** ** Run *)

(** What has happened on the network when [Run] returns: nothing (no
    dial was attempted), a dial that failed, or a connection to
    [address], given as it is left. *)
Inductive Outcome : Type :=
| NotDialled
| DialFailed (address : gostring)
| Connected (address : gostring) (conn : Conn).

Section Run.

(** [schema.Unmarshal], of the module [github.com/scorify/schema]: the
    decoded configuration or an error. *)
Variable Unmarshal : gostring -> Schema + error.

(** The network: what dialling an address gives, a fresh connection
    with the peer's behaviour or an error. *)
Variable dial : gostring -> Conn + error.

Definition shellPrompts : list gostring := [str "$ "; str "# "].

(** The exchange of [Run] on the open connection, from [SetDeadline] to
    the return: the returned error and the connection left. *)
Definition exchange (conf : Schema) (deadline : Z) (conn : Conn)
  : option error * Conn :=
  let conn := SetDeadline conn deadline in
  (* 1. Wait for login prompt *)
  let '(conn, _, err) := readUntilAny conn [str "ogin:"] in
  match err with
  | Some err =>
    (Some (Errorf (str "failed waiting for login prompt: " ++ Error err)), conn)
  | None =>
  let '(conn, err) := sendLine conn (Username conf) in
  match err with
  | Some err =>
    (Some (Errorf (str "failed sending username: " ++ Error err)), conn)
  | None =>
  (* 2. Wait for password prompt *)
  let '(conn, _, err) := readUntilAny conn [str "assword:"] in
  match err with
  | Some err =>
    (Some (Errorf (str "failed waiting for password prompt: " ++ Error err)),
     conn)
  | None =>
  let '(conn, err) := sendLine conn (Username conf) in
  match err with
  | Some err =>
    (Some (Errorf (str "failed sending password: " ++ Error err)), conn)
  | None =>
  (* 3. Wait for shell prompt *)
  let '(conn, _, err) := readUntilAny conn shellPrompts in
  match err with
  | Some err =>
    (Some (Errorf (str "failed waiting for shell prompt: " ++ Error err)), conn)
  | None =>
  (* 4. Send command *)
  let '(conn, err) := sendLine conn (Command conf) in
  match err with
  | Some err =>
    (Some (Errorf (str "failed sending command: " ++ Error err)), conn)
  | None =>
  (* 5. Read until prompt returns again *)
  let '(conn, cmdOutput, err) := readUntilAny conn shellPrompts in
  match err with
  | Some err =>
    (Some (Errorf (str "failed reading command output: " ++ Error err)), conn)
  | None =>
  let expected := ExpectedOutput conf in
  if negb (Contains cmdOutput expected) then
    (Some (Errorf (str "failed: outputs do not match; got: " ++ cmdOutput)),
     conn)
  else (None, conn)
  end end end end end end end.

(** [Run ctx config]: the returned error and what has happened on the
    network.  The deferred [conn.Close()] runs on every return after a
    successful dial. *)
Definition Run (ctx : Context) (config : gostring) : option error * Outcome :=
  match Unmarshal config with
  | inr err => (Some err, NotDialled)
  | inl conf =>
    match ctx_deadline ctx with
    | None => (Some (Errorf (str "context deadline is not set")), NotDialled)
    | Some deadline =>
      let connStr := Server conf ++ str ":" ++ Itoa (Port conf) in
      match dial connStr with
      | inr err =>
        (Some (ErrorfW (str "failed to dial " ++ connStr ++ str ": "
                        ++ Error err) err),
         DialFailed connStr)
      | inl conn =>
        let '(err, conn) := exchange conf deadline conn in
        (err, Connected connStr (Close conn))
      end
    end
  end.

End Run.

(** ** Validate *)

Section Validate.

Variable Unmarshal : gostring -> Schema + error.

(** The [%q] verb of package [fmt] at a string: the string quoted as
    [strconv.Quote] does. *)
Variable Quote : gostring -> gostring.

Definition Validate (config : gostring) : option error :=
  match Unmarshal config with
  | inr err => Some err
  | inl conf =>
    if string_eqb (Server conf) [] then
      Some (Errorf (str "server is required; got " ++ Quote (Server conf)))
    else if (Port conf <=? 0)%Z || (65535 <? Port conf)%Z then
      Some (Errorf (str "port must be between 1 and 65535; got "
                    ++ Itoa (Port conf)))
    else if string_eqb (Username conf) [] then
      Some (Errorf (str "username is required; got "
                    ++ Quote (Username conf)))
    else if string_eqb (Password conf) [] then
      Some (Errorf (str "password is required; got "
                    ++ Quote (Password conf)))
    else if string_eqb (Command conf) [] then
      Some (Errorf (str "command is required; got " ++ Quote (Command conf)))
    else None
  end.

End Validate.

(** ** Vocabulary for the statements *)

(** The bytes of a subnegotiation that the loop of the [SB] case passes
    over without leaving: single bytes other than [IAC], and pairs of
    [IAC] and a byte other than [SE]. *)
Fixpoint sb_skipped (body : list byte) : bool :=
  match body with
  | [] => true
  | b :: body1 =>
    if byte_eqb b IAC then
      match body1 with
      | [] => false
      | y :: body2 => negb (byte_eqb y SE) && sb_skipped body2
      end
    else sb_skipped body1
  end.

(** A payload of three bytes [IAC WONT x] or [IAC DONT x]. *)
Definition is_refusal (p : gostring) : bool :=
  match p with
  | [a; b; _] => byte_eqb a IAC && (byte_eqb b WONT || byte_eqb b DONT)
  | _ => false
  end.

(** The payloads of a log that are not refusals, in order. *)
Definition lines_sent (w : list gostring) : list gostring :=
  filter (fun p => negb (is_refusal p)) w.

End Telnet.

(* ================================================================== *)
(** * Package ssh (main.go): the plain-line variant                    *)
(* ================================================================== *)

Module PlainLine.
Import Go.

Record Schema : Type := {
  Server : gostring;
  Port : Z;
  Username : gostring;
  Password : gostring;
  Command : gostring;
  ExpectedOutput : gostring
}.

(** ** The connection behind its [bufio.Reader]

    All reads go through [reader := bufio.NewReader(conn)].  [rd] is
    what the reads of the connection will bring, in order: bytes, and
    the failures of reads ([Fail]; a read that brings bytes and an error
    is its bytes followed by the failure).  Once [rd] is used up the
    connection is at its end and every read fails with [rd_end].  The
    bytes the reader holds in its buffer are the front of [rd].  [wlog]
    is the log of the payloads written, oldest first; the program looks
    at no result of a write. *)
Inductive Item : Type :=
| Data (b : byte)
| Fail (err : error).

Record Conn : Type := {
  rd : list Item;
  rd_end : error;
  wlog : list gostring;
  closed : bool
}.

Definition set_rd (c : Conn) (l : list Item) : Conn :=
  {| rd := l; rd_end := rd_end c; wlog := wlog c; closed := closed c |}.

(** [reader.ReadString(delim)] on the items to come, with [line] the
    bytes read so far: the bytes up to and with the first [delim] and no
    error, or, when a read fails before a [delim] is seen, the bytes
    read before the failure and its error. *)
Fixpoint ReadString_from (items : list Item) (end_err : error)
    (delim : byte) (line : gostring)
  : list Item * gostring * option error :=
  match items with
  | [] => ([], line, Some end_err)
  | Data b :: rest =>
    if byte_eqb b delim then (rest, line ++ [b], None)
    else ReadString_from rest end_err delim (line ++ [b])
  | Fail err :: rest => (rest, line, Some err)
  end.

Definition ReadString (c : Conn) (delim : byte)
  : Conn * gostring * option error :=
  let '(rest, line, err) := ReadString_from (rd c) (rd_end c) delim [] in
  (set_rd c rest, line, err).

(** [fmt.Fprintf(conn, format, ...)] with the formatted text [text]. *)
Definition Fprintf (c : Conn) (text : gostring) : Conn :=
  {| rd := rd c; rd_end := rd_end c; wlog := wlog c ++ [text];
     closed := closed c |}.

Definition Close (c : Conn) : Conn :=
  {| rd := rd c; rd_end := rd_end c; wlog := wlog c; closed := true |}.

Definition newline : byte := x0a.

(** The two loops that wait for a prompt: read lines until one holds
    [prompt], then send [answer] and a line feed.  [Some (conn, err)]:
    the loop is left by [break] ([err = None]) or [Run] returns [err];
    [None]: [fuel] iterations were not enough. *)
Fixpoint promptLoop (fuel : nat) (conn : Conn) (prompt answer : gostring)
  : option (Conn * option error) :=
  match fuel with
  | O => None
  | S fuel' =>
    let '(conn, line, err) := ReadString conn newline in
    match err with
    | Some _ => Some (conn, Some (Errorf (str "context deadline is not set")))
    | None =>
      if Contains line prompt
      then Some (Fprintf conn (answer ++ [newline]), None)
      else promptLoop fuel' conn prompt answer
    end
  end.

(** The loop that gathers the output, with [result] the content of the
    builder: lines are appended until a read fails.  The read deadline
    the loop sets before every read acts through the failures in [rd]
    only. *)
Fixpoint outputLoop (fuel : nat) (conn : Conn) (result : gostring)
  : option (Conn * gostring) :=
  match fuel with
  | O => None
  | S fuel' =>
    let '(conn, line, err) := ReadString conn newline in
    match err with
    | Some _ => Some (conn, result)
    | None => outputLoop fuel' conn (result ++ line)
    end
  end.

(** Every iteration of the two loops uses up an item of [rd] or ends
    the loop, so [S (length (rd conn))] iterations are enough (lemmas
    [promptLoop_total] and [outputLoop_total]). *)
Definition waitPrompt (conn : Conn) (prompt answer : gostring)
  : Conn * option error :=
  match promptLoop (S (List.length (rd conn))) conn prompt answer with
  | Some r => r
  | None => (conn, None)
  end.

Definition readOutput (conn : Conn) : Conn * gostring :=
  match outputLoop (S (List.length (rd conn))) conn [] with
  | Some r => r
  | None => (conn, [])
  end.

Inductive Outcome : Type :=
| NotDialled
| DialFailed (address : gostring)
| Connected (address : gostring) (conn : Conn).

Section Run.

Variable Unmarshal : gostring -> Schema + error.
Variable dial : gostring -> Conn + error.

Definition quote : gostring := [x22].

(** The exchange of [Run] on the open connection: the returned error and
    the connection left.  [time.Sleep] changes nothing here. *)
Definition exchange (conf : Schema) (conn : Conn) : option error * Conn :=
  let '(conn, err) := waitPrompt conn (str "login:") (Username conf) in
  match err with
  | Some err => (Some err, conn)
  | None =>
  let '(conn, err) := waitPrompt conn (str "Password:") (Password conf) in
  match err with
  | Some err => (Some err, conn)
  | None =>
  let '(conn, line, err) := ReadString conn newline in
  match err with
  | Some _ => (Some (Errorf (str "context deadline is not set")), conn)
  | None =>
  if Contains line (str "login:") then
    (Some (Errorf (str "Login failed")), conn)
  else
  let conn := Fprintf conn (Command conf ++ [newline]) in
  let '(conn, result) := readOutput conn in
  let outputString := TrimSpace result in
  let expectedOutputString := TrimSpace (ExpectedOutput conf) in
  if negb (string_eqb outputString expectedOutputString) then
    (Some (Errorf (str "expected output " ++ quote ++ expectedOutputString
                   ++ quote ++ str " but got " ++ quote ++ outputString
                   ++ quote)),
     conn)
  else (None, conn)
  end end end.

Definition Run (ctx : Context) (config : gostring) : option error * Outcome :=
  match Unmarshal config with
  | inr err => (Some err, NotDialled)
  | inl conf =>
    match ctx_deadline ctx with
    | None => (Some (Errorf (str "context deadline is not set")), NotDialled)
    | Some deadline =>
      let address := JoinHostPort (Server conf) (Itoa (Port conf)) in
      match dial address with
      | inr _ => (Some (Errorf (str "tcp dial failed")), DialFailed address)
      | inl conn =>
        let '(err, conn) := exchange conf conn in
        (err, Connected address (Close conn))
      end
    end
  end.

End Run.

(** ** Validate *)

Section Validate.

Variable Unmarshal : gostring -> Schema + error.
Variable Quote : gostring -> gostring.

Definition Validate (config : gostring) : option error :=
  match Unmarshal config with
  | inr err => Some err
  | inl conf =>
    if string_eqb (Server conf) [] then
      Some (Errorf (str "server is required; got " ++ Quote (Server conf)))
    else if (Port conf <=? 0)%Z || (65535 <? Port conf)%Z then
      Some (Errorf (str "port must be between 1 and 65535; got "
                    ++ Itoa (Port conf)))
    else if string_eqb (Username conf) [] then
      Some (Errorf (str "username is required; got "
                    ++ Quote (Username conf)))
    else if string_eqb (Password conf) [] then
      Some (Errorf (str "password is required; got "
                    ++ Quote (Password conf)))
    else if string_eqb (Command conf) [] then
      Some (Errorf (str "command is required; got " ++ Quote (Command conf)))
    else None
  end.

End Validate.

(** The items of a list of lines, each followed by a line feed. *)
Definition line_items (lines : list gostring) : list Item :=
  map Data (List.concat (map (fun l => l ++ [newline]) lines)).

(** The field by field copy of a configuration of package [telnet]. *)
Definition of_telnet (conf : Telnet.Schema) : Schema :=
  {| Server := Telnet.Server conf; Port := Telnet.Port conf;
     Username := Telnet.Username conf; Password := Telnet.Password conf;
     Command := Telnet.Command conf;
     ExpectedOutput := Telnet.ExpectedOutput conf |}.

End PlainLine.

(* ================================================================== *)
(** * Scenarios                                                        *)
(* ================================================================== *)

(** Concrete peers and configurations, after the scenarios of the
    specification. *)
Module Scenario.
Import Go.

Definition ctx : Context := {| ctx_deadline := Some 30%Z |}.

Definition no_deadline : Context := {| ctx_deadline := None |}.

Definition timeout : error := ErrNew (str "i/o timeout").

(** Scenario A: the peer sends "login:", "assword:", "$ " and, after
    the command, "alice", a line feed and "$ ". *)
Definition telnet_conf : Telnet.Schema :=
  {| Telnet.Server := str "host"; Telnet.Port := 23%Z;
     Telnet.Username := str "alice"; Telnet.Password := str "secret";
     Telnet.Command := str "whoami"; Telnet.ExpectedOutput := str "alice" |}.

Definition alice_output : gostring := str "alice" ++ [x0a] ++ str "$ ".

Definition telnet_peer : Telnet.Conn :=
  Telnet.fresh
    (map Telnet.delivered
       (str "login:" ++ str "assword:" ++ str "$ " ++ alice_output)).

Definition telnet_Unmarshal (config : gostring) : Telnet.Schema + error :=
  inl telnet_conf.

Definition telnet_dial (address : gostring) : Telnet.Conn + error :=
  inl telnet_peer.

(** The plain-line peer sends the lines "login:", "Password:",
    "Welcome" and "alice", then the prompt "$ " and nothing more until
    the read deadline passes. *)
Definition plain_conf : PlainLine.Schema :=
  {| PlainLine.Server := str "host"; PlainLine.Port := 23%Z;
     PlainLine.Username := str "alice"; PlainLine.Password := str "secret";
     PlainLine.Command := str "whoami";
     PlainLine.ExpectedOutput := str "alice" |}.

Definition plain_lines (lines : list gostring) : list PlainLine.Item :=
  map PlainLine.Data (List.concat (map (fun l => l ++ [x0a]) lines)).

Definition plain_peer : PlainLine.Conn :=
  {| PlainLine.rd := plain_lines [str "login:"; str "Password:";
                                  str "Welcome"; str "alice"]
                     ++ map PlainLine.Data (str "$ ")
                     ++ [PlainLine.Fail timeout];
     PlainLine.rd_end := ErrNew (str "EOF");
     PlainLine.wlog := [];
     PlainLine.closed := false |}.

(** Scenario D: after the password the peer sends "login:" again. *)
Definition plain_peer_rejecting : PlainLine.Conn :=
  {| PlainLine.rd := plain_lines [str "login:"; str "Password:";
                                  str "login:"];
     PlainLine.rd_end := ErrNew (str "EOF");
     PlainLine.wlog := [];
     PlainLine.closed := false |}.

Definition plain_Unmarshal (config : gostring) : PlainLine.Schema + error :=
  inl plain_conf.

Definition plain_dial (address : gostring) : PlainLine.Conn + error :=
  inl plain_peer.

Definition plain_dial_rejecting (address : gostring)
  : PlainLine.Conn + error :=
  inl plain_peer_rejecting.

End Scenario.

(* ================================================================== *)
(** * Facts about the library functions                                *)
(* ================================================================== *)

Section GoFacts.
Import Go.

Lemma byte_eqb_eq (a b : byte) : byte_eqb a b = true <-> a = b.
Proof.
  unfold byte_eqb. split.
  - apply Byte.byte_dec_bl.
  - intros ->. now apply Byte.byte_dec_lb.
Qed.

Lemma byte_eqb_refl (a : byte) : byte_eqb a a = true.
Proof. now apply byte_eqb_eq. Qed.

Lemma byte_eqb_neq (a b : byte) : byte_eqb a b = false <-> a <> b.
Proof.
  rewrite <- byte_eqb_eq. destruct (byte_eqb a b); split; congruence.
Qed.

Lemma HasPrefix_spec (s p : gostring) :
  HasPrefix s p = true <-> exists r, s = p ++ r.
Proof.
  revert s. induction p as [|x p IH]; intros s; simpl.
  - split; [intros _; now exists s | reflexivity].
  - destruct s as [|c s].
    + split; [discriminate | intros [r Hr]; discriminate].
    + rewrite andb_true_iff, byte_eqb_eq, IH. split.
      * intros [-> [r ->]]. now exists r.
      * intros [r Hr]. injection Hr as -> ->. split; [reflexivity | now exists r].
Qed.

Lemma Contains_spec (s t : gostring) :
  Contains s t = true <-> exists l r, s = l ++ t ++ r.
Proof.
  induction s as [|c s IH]; simpl.
  - rewrite orb_false_r, HasPrefix_spec. split.
    + intros [r Hr]. now exists [], r.
    + intros [l [r Hr]]. destruct l; [now exists r | discriminate].
  - rewrite orb_true_iff, HasPrefix_spec, IH. split.
    + intros [[r Hr] | [l [r Hr]]].
      * now exists [], r.
      * exists (c :: l), r. now rewrite Hr.
    + intros [l [r Hr]]. destruct l as [|c' l].
      * left. now exists r.
      * right. injection Hr as _ Hr. now exists l, r.
Qed.

Lemma Contains_nil (s : gostring) : Contains s [] = true.
Proof. apply Contains_spec. now exists [], s. Qed.

Lemma Contains_app_l (s u t : gostring) :
  Contains s t = true -> Contains (s ++ u) t = true.
Proof.
  rewrite !Contains_spec. intros [l [r ->]]. exists l, (r ++ u).
  now rewrite <- !app_assoc.
Qed.

Lemma string_eqb_eq (a b : gostring) : string_eqb a b = true <-> a = b.
Proof.
  unfold string_eqb. destruct (list_eq_dec byte_eq_dec a b); split;
    congruence.
Qed.

End GoFacts.

(* ================================================================== *)
(** * The option-aware variant: reads, the filter and the matcher      *)
(* ================================================================== *)

Section TelnetFacts.
Import Go Telnet.

(** ** One read *)

Lemma Read_nil (c : Conn) (p0 : byte) :
  rd c = [] -> Read c p0 = (c, p0, 0, Some (rd_end c)).
Proof. unfold Read. now intros ->. Qed.

Lemma Read_cons (c : Conn) (p0 : byte) (ev : ReadEv) (rest : list ReadEv) :
  rd c = ev :: rest ->
  Read c p0 =
    (set_rd c rest,
     match ev_byte ev with Some b => b | None => p0 end,
     match ev_byte ev with Some _ => 1 | None => 0 end,
     ev_err ev).
Proof. unfold Read. intros ->. now destruct (ev_byte ev). Qed.

Lemma set_rd_id (c : Conn) : set_rd c (rd c) = c.
Proof. now destruct c. Qed.

Lemma set_rd_set_rd (c : Conn) (l l' : list ReadEv) :
  set_rd (set_rd c l) l' = set_rd c l'.
Proof. reflexivity. Qed.

Lemma advances_refl (c : Conn) : advances c c [].
Proof.
  split; simpl; try reflexivity; try (now exists []); now rewrite app_nil_r.
Qed.

Lemma advances_trans (c1 c2 c3 : Conn) (w1 w2 : list gostring) :
  advances c1 c2 w1 -> advances c2 c3 w2 -> advances c1 c3 (w1 ++ w2).
Proof.
  intros [[u1 H1] E1 R1 L1 D1 C1] [[u2 H2] E2 R2 L2 D2 C2]. split.
  - exists (u1 ++ u2). now rewrite H1, H2, app_assoc.
  - congruence.
  - rewrite R2, R1, length_app, skipn_skipn. f_equal. lia.
  - now rewrite L2, L1, app_assoc.
  - congruence.
  - congruence.
Qed.

Lemma advances_length (c c' : Conn) (w : list gostring) :
  advances c c' w -> List.length (rd c') <= List.length (rd c).
Proof. intros [[u H] _ _ _ _ _]. rewrite H, length_app. lia. Qed.

Lemma advances_set_rd (c : Conn) (ev : ReadEv) (rest : list ReadEv) :
  rd c = ev :: rest -> advances c (set_rd c rest) [].
Proof.
  intros H. split; simpl; try reflexivity.
  all: try (now exists [ev]); try (now rewrite app_nil_r).
Qed.

Lemma advances_Read (c c' : Conn) (p0 b : byte) (n : nat) (err : option error) :
  Read c p0 = (c', b, n, err) -> advances c c' [].
Proof.
  unfold Read. destruct (rd c) as [|ev rest] eqn:Hrd.
  - intros H. injection H as <- _ _ _. apply advances_refl.
  - destruct (ev_byte ev); intros H; injection H as <- _ _ _;
      now apply advances_set_rd with ev.
Qed.

Lemma advances_Write (c : Conn) (p : gostring) :
  advances c (fst (Write c p)) [p].
Proof.
  split; simpl; try reflexivity; try (now exists []); now destruct (wr c).
Qed.

Lemma Read_ok_length (c c' : Conn) (p0 b : byte) (n : nat) :
  Read c p0 = (c', b, n, None) -> List.length (rd c) = S (List.length (rd c')).
Proof.
  unfold Read. destruct (rd c) as [|ev rest] eqn:Hrd.
  - discriminate.
  - destruct (ev_byte ev); intros H; injection H as <- _ _ _; reflexivity.
Qed.

(** ** The filter *)

(** The subnegotiation loop ends within [S (length (rd conn))]
    iterations, and it only reads. *)
Lemma handleIAC_sb_total (fuel : nat) (conn : Conn) (one : byte) :
  List.length (rd conn) < fuel ->
  exists c', handleIAC_sb fuel conn one = Some c' /\ advances conn c' [].
Proof.
  revert conn one. induction fuel as [|fuel IH]; intros conn one Hlen.
  - lia.
  - simpl. destruct (Read conn one) as [[[c1 b1] n1] e1] eqn:HR1.
    pose proof (advances_Read _ _ HR1) as A1.
    destruct e1 as [e1|].
    + now exists c1.
    + apply Read_ok_length in HR1.
      destruct (byte_eqb b1 IAC).
      * destruct (Read c1 b1) as [[[c2 b2] n2] e2] eqn:HR2.
        pose proof (advances_Read _ _ HR2) as A2.
        pose proof (advances_trans A1 A2) as A12.
        destruct e2 as [e2|].
        -- now exists c2.
        -- apply Read_ok_length in HR2.
           destruct (byte_eqb b2 SE).
           ++ now exists c2.
           ++ destruct (IH c2 b2) as [c' [H A]]; [lia|].
              exists c'. split; [exact H|].
              exact (advances_trans A12 A).
      * destruct (IH c1 b1) as [c' [H A]]; [lia|].
        exists c'. split; [exact H|].
        exact (advances_trans A1 A).
Qed.

(** [handleIAC] only reads and writes at most one refusal; it handles
    exactly the byte [IAC]. *)
Lemma handleIAC_advances (conn : Conn) (firstByte : byte) :
  exists w, advances conn (fst (handleIAC conn firstByte)) w /\
            Forall refusal w.
Proof.
  unfold handleIAC. destruct (negb (byte_eqb firstByte IAC)).
  - exists []. split; [apply advances_refl | constructor].
  - destruct (Read conn x00) as [[[c1 cmd] n1] e1] eqn:HR1.
    pose proof (advances_Read _ _ HR1) as A1.
    destruct e1 as [e1|]; [now exists []|].
    destruct (byte_eqb cmd DO).
    { destruct (Read c1 x00) as [[[c2 opt] n2] e2] eqn:HR2.
      pose proof (advances_Read _ _ HR2) as A2.
      pose proof (advances_Write c2 [IAC; WONT; opt]) as A3.
      destruct (Write c2 [IAC; WONT; opt]) as [c3 e3]. simpl in *.
      exists [[IAC; WONT; opt]]. split.
      - exact (advances_trans (advances_trans A1 A2) A3).
      - repeat constructor. exists opt. now left. }
    destruct (byte_eqb cmd WILL).
    { destruct (Read c1 x00) as [[[c2 opt] n2] e2] eqn:HR2.
      pose proof (advances_Read _ _ HR2) as A2.
      pose proof (advances_Write c2 [IAC; DONT; opt]) as A3.
      destruct (Write c2 [IAC; DONT; opt]) as [c3 e3]. simpl in *.
      exists [[IAC; DONT; opt]]. split.
      - exact (advances_trans (advances_trans A1 A2) A3).
      - repeat constructor. exists opt. now right. }
    destruct (byte_eqb cmd WONT || byte_eqb cmd DONT).
    { destruct (Read c1 x00) as [[[c2 opt] n2] e2] eqn:HR2.
      pose proof (advances_Read _ _ HR2) as A2. simpl.
      exists []. split; [exact (advances_trans A1 A2) | constructor]. }
    destruct (byte_eqb cmd SB).
    { destruct (handleIAC_sb_total (fuel := S (List.length (rd c1))) c1 x00)
        as [c' [H A]]; [lia|].
      rewrite H. simpl.
      exists []. split; [exact (advances_trans A1 A) | constructor]. }
    simpl. now exists [].
Qed.

Lemma handleIAC_handled (conn : Conn) (firstByte : byte) :
  snd (handleIAC conn firstByte) = byte_eqb firstByte IAC.
Proof.
  unfold handleIAC. destruct (byte_eqb firstByte IAC); cbn [negb];
    [|reflexivity].
  destruct (Read conn x00) as [[[c1 cmd] n1] e1].
  destruct e1; [reflexivity|].
  destruct (byte_eqb cmd DO).
  { destruct (Read c1 x00) as [[[c2 opt] n2] e2].
    now destruct (Write c2 [IAC; WONT; opt]). }
  destruct (byte_eqb cmd WILL).
  { destruct (Read c1 x00) as [[[c2 opt] n2] e2].
    now destruct (Write c2 [IAC; DONT; opt]). }
  destruct (byte_eqb cmd WONT || byte_eqb cmd DONT).
  { now destruct (Read c1 x00) as [[[c2 opt] n2] e2]. }
  destruct (byte_eqb cmd SB).
  { now destruct (handleIAC_sb (S (List.length (rd c1))) c1 x00). }
  reflexivity.
Qed.

Lemma handleIAC_data (conn : Conn) (b : byte) :
  b <> IAC -> handleIAC conn b = (conn, false).
Proof.
  intros Hb. unfold handleIAC. apply byte_eqb_neq in Hb. now rewrite Hb.
Qed.

(** ** The matcher: the loop returns *)

Lemma loop_step (fuel : nat) (conn : Conn) (targets : list gostring)
    (buf : gostring) :
  readUntilAny_loop (S fuel) conn targets buf =
    let '(conn, one, n, err) := Read conn x00 in
    if 0 <? n then
      let '(conn, handled) := handleIAC conn one in
      if handled then readUntilAny_loop fuel conn targets buf
      else
        let s := buf ++ [one] in
        match firstContained s targets with
        | Some _ => Some (conn, s, None)
        | None =>
          match err with
          | Some e => Some (conn, s, Some (readError targets e))
          | None => readUntilAny_loop fuel conn targets s
          end
        end
    else
      match err with
      | Some e => Some (conn, buf, Some (readError targets e))
      | None => readUntilAny_loop fuel conn targets buf
      end.
Proof. reflexivity. Qed.

Lemma loop_more_fuel (fuel : nat) (conn : Conn) (targets : list gostring)
    (buf : gostring) (r : Conn * gostring * option error) :
  readUntilAny_loop fuel conn targets buf = Some r ->
  readUntilAny_loop (S fuel) conn targets buf = Some r.
Proof.
  revert conn buf. induction fuel as [|fuel IH]; intros conn buf H.
  - discriminate.
  - rewrite loop_step in H. rewrite loop_step.
    destruct (Read conn x00) as [[[c1 one] n] err].
    destruct (0 <? n).
    + destruct (handleIAC c1 one) as [c2 handled].
      destruct handled; [now apply IH|].
      cbv zeta in *.
      destruct (firstContained (buf ++ [one]) targets); [exact H|].
      destruct err; [exact H | now apply IH].
    + destruct err; [exact H | now apply IH].
Qed.

Lemma loop_fuel_le (fuel fuel' : nat) (conn : Conn) (targets : list gostring)
    (buf : gostring) (r : Conn * gostring * option error) :
  readUntilAny_loop fuel conn targets buf = Some r ->
  fuel <= fuel' ->
  readUntilAny_loop fuel' conn targets buf = Some r.
Proof.
  intros H Hle. induction Hle as [|m Hle IH]; [exact H|].
  now apply loop_more_fuel.
Qed.

(** The loop returns within [S (length (rd conn))] iterations. *)
Lemma loop_total (fuel : nat) (conn : Conn) (targets : list gostring)
    (buf : gostring) :
  List.length (rd conn) < fuel ->
  exists r, readUntilAny_loop fuel conn targets buf = Some r.
Proof.
  revert conn buf. induction fuel as [|fuel IH]; intros conn buf Hlen.
  - lia.
  - rewrite loop_step.
    destruct (Read conn x00) as [[[c1 one] n] err] eqn:HR.
    assert (Hrec : err = None -> List.length (rd c1) < fuel).
    { intros ->. apply Read_ok_length in HR. lia. }
    assert (Hle : List.length (rd c1) <= List.length (rd conn)).
    { exact (advances_length (advances_Read _ _ HR)). }
    destruct (0 <? n) eqn:Hn.
    + destruct (handleIAC c1 one) as [c2 handled] eqn:HI.
      destruct (handleIAC_advances c1 one) as [w [A _]].
      rewrite HI in A. simpl in A. apply advances_length in A.
      assert (Hn' : List.length (rd c1) < List.length (rd conn)).
      { unfold Read in HR. destruct (rd conn) as [|ev rest] eqn:Hrd.
        - injection HR as _ _ <- _. discriminate.
        - destruct (ev_byte ev); injection HR as <- _ _ _; simpl; lia. }
      destruct handled; [apply IH; lia|].
      cbv zeta.
      destruct (firstContained (buf ++ [one]) targets); [eauto|].
      destruct err; [eauto | apply IH; lia].
    + destruct err; [eauto | apply IH; auto].
Qed.

Lemma readUntilAny_total (conn : Conn) (targets : list gostring) :
  readUntilAny_loop (S (List.length (rd conn))) conn targets [] =
    Some (readUntilAny conn targets).
Proof.
  unfold readUntilAny.
  destruct (loop_total (fuel := S (List.length (rd conn))) conn targets [])
    as [r H]; [lia|].
  now rewrite H.
Qed.

(** With enough fuel the loop from the empty buffer is [readUntilAny]. *)
Lemma readUntilAny_fuel (fuel : nat) (conn : Conn) (targets : list gostring) :
  List.length (rd conn) < fuel ->
  readUntilAny_loop fuel conn targets [] = Some (readUntilAny conn targets).
Proof.
  intros Hlen. apply loop_fuel_le with (S (List.length (rd conn))).
  - apply readUntilAny_total.
  - lia.
Qed.

(** ** The matcher: one iteration, by the outcome of its read *)

Lemma loop_at_end (fuel : nat) (conn : Conn) (targets : list gostring)
    (buf : gostring) :
  rd conn = [] ->
  readUntilAny_loop (S fuel) conn targets buf =
    Some (conn, buf, Some (readError targets (rd_end conn))).
Proof. intros H. rewrite loop_step, (Read_nil _ _ H). reflexivity. Qed.

Lemma loop_no_byte (fuel : nat) (conn : Conn) (targets : list gostring)
    (buf : gostring) (ev : ReadEv) (rest : list ReadEv) :
  rd conn = ev :: rest -> ev_byte ev = None ->
  readUntilAny_loop (S fuel) conn targets buf =
    match ev_err ev with
    | Some e => Some (set_rd conn rest, buf, Some (readError targets e))
    | None => readUntilAny_loop fuel (set_rd conn rest) targets buf
    end.
Proof.
  intros H Hb. rewrite loop_step, (Read_cons _ _ H), Hb. reflexivity.
Qed.

Lemma loop_data_byte (fuel : nat) (conn : Conn) (targets : list gostring)
    (buf : gostring) (ev : ReadEv) (rest : list ReadEv) (b : byte) :
  rd conn = ev :: rest -> ev_byte ev = Some b -> b <> IAC ->
  readUntilAny_loop (S fuel) conn targets buf =
    match firstContained (buf ++ [b]) targets with
    | Some _ => Some (set_rd conn rest, buf ++ [b], None)
    | None =>
      match ev_err ev with
      | Some e =>
        Some (set_rd conn rest, buf ++ [b], Some (readError targets e))
      | None => readUntilAny_loop fuel (set_rd conn rest) targets (buf ++ [b])
      end
    end.
Proof.
  intros H Hb Hiac.
  rewrite loop_step, (Read_cons _ _ H), Hb. cbn [Nat.ltb Nat.leb].
  now rewrite (handleIAC_data _ Hiac).
Qed.

Lemma loop_IAC (fuel : nat) (conn : Conn) (targets : list gostring)
    (buf : gostring) (ev : ReadEv) (rest : list ReadEv) :
  rd conn = ev :: rest -> ev_byte ev = Some IAC ->
  readUntilAny_loop (S fuel) conn targets buf =
    readUntilAny_loop fuel (fst (handleIAC (set_rd conn rest) IAC)) targets buf.
Proof.
  intros H Hb.
  rewrite loop_step, (Read_cons _ _ H), Hb. cbn [Nat.ltb Nat.leb].
  pose proof (handleIAC_handled (set_rd conn rest) IAC) as Hh.
  destruct (handleIAC (set_rd conn rest) IAC) as [c2 handled].
  simpl in Hh. subst handled. reflexivity.
Qed.

(** Bytes other than [IAC] that complete no target are appended one by
    one. *)
Lemma loop_plain (pre : gostring) (fuel : nat) (conn : Conn)
    (targets : list gostring) (buf : gostring) (rest : list ReadEv) :
  rd conn = map delivered pre ++ rest ->
  ~ In IAC pre ->
  (forall k, 0 < k <= List.length pre ->
             firstContained (buf ++ firstn k pre) targets = None) ->
  readUntilAny_loop (List.length pre + fuel) conn targets buf =
    readUntilAny_loop fuel (set_rd conn rest) targets (buf ++ pre).
Proof.
  revert conn buf. induction pre as [|b pre IH]; intros conn buf Hrd Hiac Hno.
  - simpl in *. rewrite app_nil_r, <- Hrd, set_rd_id. reflexivity.
  - simpl in Hrd. cbn [List.length Nat.add].
    rewrite (@loop_data_byte _ conn targets buf (delivered b)
               (map delivered pre ++ rest) b Hrd eq_refl).
    2:{ intros ->. apply Hiac. now left. }
    specialize (Hno 1) as H1. simpl in H1. rewrite H1 by lia.
    cbn [ev_err delivered].
    rewrite (IH (set_rd conn (map delivered pre ++ rest)) (buf ++ [b])).
    + rewrite set_rd_set_rd, <- app_assoc. reflexivity.
    + reflexivity.
    + intros Hin. apply Hiac. now right.
    + intros k Hk. rewrite <- app_assoc. apply (Hno (S k)). simpl. lia.
Qed.

(** ** The matcher: what a return says

    Whatever the connection brings: the returned string is the buffer
    with the bytes [ext] appended since; no target was in the buffer
    after any earlier append; a return without error comes right after
    an append that put a target in the buffer, a return with an error
    carries [readError] and comes with no target in the buffer; and the
    connection was only read and answered with refusals. *)
Lemma loop_sound (fuel : nat) (conn : Conn) (targets : list gostring)
    (buf : gostring) (c' : Conn) (s : gostring) (r : option error) :
  readUntilAny_loop fuel conn targets buf = Some (c', s, r) ->
  exists ext,
    s = buf ++ ext /\
    (forall k, 0 < k < List.length ext ->
               firstContained (buf ++ firstn k ext) targets = None) /\
    match r with
    | None => ext <> [] /\ firstContained s targets <> None
    | Some err => (ext <> [] -> firstContained s targets = None) /\
                  exists e, err = readError targets e
    end /\
    exists w, advances conn c' w /\ Forall refusal w.
Proof.
  revert conn buf. induction fuel as [|fuel IH]; intros conn buf H.
  - discriminate.
  - rewrite loop_step in H.
    destruct (Read conn x00) as [[[c1 one] n] err] eqn:HR.
    pose proof (advances_Read _ _ HR) as A1.
    assert (Hstay : forall c2 w,
      advances c1 c2 w -> Forall refusal w ->
      readUntilAny_loop fuel c2 targets buf = Some (c', s, r) ->
      exists ext,
        s = buf ++ ext /\
        (forall k, 0 < k < List.length ext ->
                   firstContained (buf ++ firstn k ext) targets = None) /\
        match r with
        | None => ext <> [] /\ firstContained s targets <> None
        | Some err => (ext <> [] -> firstContained s targets = None) /\
                      exists e, err = readError targets e
        end /\
        exists w, advances conn c' w /\ Forall refusal w).
    { intros c2 w A2 F2 H2.
      destruct (IH _ _ H2) as [ext [Hs [Hk [Hr [w' [A' F']]]]]].
      exists ext. repeat split; auto.
      exists (w ++ w'). split.
      - exact (advances_trans (advances_trans A1 A2) A').
      - apply Forall_app. now split. }
    destruct (0 <? n).
    + destruct (handleIAC_advances c1 one) as [w [A2 F2]].
      destruct (handleIAC c1 one) as [c2 handled]. simpl in A2.
      destruct handled; [now apply (Hstay c2 w)|].
      cbv zeta in H.
      destruct (firstContained (buf ++ [one]) targets) as [t|] eqn:Hfc.
      * injection H as <- <- <-. exists [one]. repeat split.
        -- simpl. intros k Hk. lia.
        -- discriminate.
        -- congruence.
        -- exists w. split; [exact (advances_trans A1 A2) | exact F2].
      * destruct err as [e|].
        -- injection H as <- <- <-. exists [one]. repeat split.
           ++ simpl. intros k Hk. lia.
           ++ intros _. exact Hfc.
           ++ now exists e.
           ++ exists w. split; [exact (advances_trans A1 A2) | exact F2].
        -- destruct (IH _ _ H) as [ext [Hs [Hk [Hr [w' [A' F']]]]]].
           exists (one :: ext). split; [|split; [|split]].
           ++ rewrite Hs, <- app_assoc. reflexivity.
           ++ intros k Hlt. destruct k as [|k]; [lia|].
              destruct k as [|k].
              ** simpl. exact Hfc.
              ** simpl in Hlt.
                 specialize (Hk (S k)). rewrite <- app_assoc in Hk.
                 apply Hk. lia.
           ++ destruct r as [err|].
              ** destruct Hr as [Hn He]. split; [|exact He].
                 intros _. destruct ext as [|x ext].
                 --- rewrite Hs, app_nil_r. exact Hfc.
                 --- apply Hn. discriminate.
              ** destruct Hr as [Hn Hc]. split; [discriminate | exact Hc].
           ++ exists (w ++ w'). split.
              ** exact (advances_trans (advances_trans A1 A2) A').
              ** apply Forall_app. now split.
    + destruct err as [e|].
      * injection H as <- <- <-. exists []. repeat split.
        -- now rewrite app_nil_r.
        -- simpl. intros k Hk. lia.
        -- intros Hne. now elim Hne.
        -- now exists e.
        -- exists []. split; [exact A1 | constructor].
      * apply (Hstay c1 []); [apply advances_refl | constructor | exact H].
Qed.

End TelnetFacts.

(* ================================================================== *)
(** * The scan for the targets                                         *)
(* ================================================================== *)

Section Scan.
Import Go Telnet.

Lemma firstContained_None (s : gostring) (targets : list gostring) :
  firstContained s targets = None <->
  forall t, In t targets -> Contains s t = false.
Proof.
  unfold firstContained. split.
  - intros H t Ht. exact (find_none _ _ H t Ht).
  - induction targets as [|t targets IH]; intros H; simpl; [reflexivity|].
    rewrite (H t) by now left. apply IH. intros u Hu. apply H. now right.
Qed.

(** The target at which the scan stops is the first of the list that
    the string contains. *)
Lemma firstContained_Some (s : gostring) (targets : list gostring)
    (t : gostring) :
  firstContained s targets = Some t <->
  exists before after,
    targets = before ++ t :: after /\ Contains s t = true /\
    forall u, In u before -> Contains s u = false.
Proof.
  unfold firstContained. split.
  - induction targets as [|t0 targets IH]; simpl; [discriminate|].
    destruct (Contains s t0) eqn:Hc.
    + intros H. injection H as <-. exists [], targets. now repeat split.
    + intros H. destruct (IH H) as [before [after [-> [Ht Hb]]]].
      exists (t0 :: before), after. repeat split; auto.
      intros u [<- | Hu]; auto.
  - intros [before [after [-> [Ht Hb]]]].
    induction before as [|u before IH]; simpl.
    + now rewrite Ht.
    + rewrite (Hb u) by now left. apply IH. intros v Hv. apply Hb. now right.
Qed.

Lemma firstContained_exists (s : gostring) (targets : list gostring) :
  (exists t, In t targets /\ Contains s t = true) <->
  firstContained s targets <> None.
Proof.
  split.
  - intros [t [Ht Hc]] H. rewrite firstContained_None in H.
    specialize (H t Ht). congruence.
  - intros H. destruct (firstContained s targets) as [t|] eqn:E;
      [|congruence].
    apply firstContained_Some in E.
    destruct E as [before [after [-> [Hc _]]]].
    exists t. split; [apply in_elt | exact Hc].
Qed.

(** A contained target which no shorter non-empty prefix contains ends
    with the last byte. *)
Lemma first_occurrence_is_suffix (s t : gostring) :
  Contains s t = true ->
  (forall k, 0 < k < List.length s -> Contains (firstn k s) t = false) ->
  exists lead, s = lead ++ t.
Proof.
  intros Hc Hno. apply Contains_spec in Hc. destruct Hc as [l [r Hs]].
  destruct r as [|x r].
  - exists l. now rewrite Hs, app_nil_r.
  - destruct (Nat.eq_dec (List.length (l ++ t)) 0) as [H0|H0].
    + apply length_zero_iff_nil, app_eq_nil in H0. destruct H0 as [-> ->].
      exists s. now rewrite app_nil_r.
    + exfalso.
      assert (Hk : 0 < List.length (l ++ t) < List.length s).
      { split; [lia|]. rewrite Hs, !length_app. simpl. lia. }
      specialize (Hno _ Hk).
      assert (Hf : firstn (List.length (l ++ t)) s = l ++ t).
      { rewrite Hs, app_assoc, firstn_app, Nat.sub_diag, firstn_all.
        simpl. now rewrite app_nil_r. }
      rewrite Hf in Hno.
      assert (Contains (l ++ t) t = true).
      { apply Contains_spec. exists l, []. now rewrite app_nil_r. }
      congruence.
Qed.

End Scan.

(* ================================================================== *)
(** * The option negotiation filter                                    *)
(* ================================================================== *)

Section Filter.
Import Go Telnet.

Lemma loop_pending_IAC (fuel : nat) (conn : Conn) (bs : list byte)
    (rest : list ReadEv) (targets : list gostring) (buf : gostring) :
  readUntilAny_loop (S fuel) (pending conn (IAC :: bs) rest) targets buf =
    readUntilAny_loop fuel (fst (handleIAC (pending conn bs rest) IAC))
      targets buf.
Proof.
  unfold pending. cbn [map app].
  now rewrite (@loop_IAC fuel
                 (set_rd conn (delivered IAC :: map delivered bs ++ rest))
                 targets buf (delivered IAC)
                 (map delivered bs ++ rest) eq_refl eq_refl).
Qed.

Lemma readUntilAny_pending_IAC (conn : Conn) (bs : list byte)
    (rest : list ReadEv) (targets : list gostring) :
  readUntilAny (pending conn (IAC :: bs) rest) targets =
    readUntilAny (fst (handleIAC (pending conn bs rest) IAC)) targets.
Proof.
  assert (H : Some (readUntilAny (pending conn (IAC :: bs) rest) targets) =
              Some (readUntilAny (fst (handleIAC (pending conn bs rest) IAC))
                      targets)).
  { rewrite <- readUntilAny_total.
    change (rd (pending conn (IAC :: bs) rest))
      with (delivered IAC :: rd (pending conn bs rest)).
    cbn [List.length]. rewrite loop_pending_IAC.
    apply readUntilAny_fuel.
    destruct (handleIAC_advances (pending conn bs rest) IAC) as [w [A _]].
    apply advances_length in A. lia. }
  now injection H.
Qed.

(** C2.  When the filter is handed [IAC] and the connection delivers
    [DO x], it writes exactly the one payload [IAC WONT x] and reports
    the byte handled; on [WILL x] it writes exactly [IAC DONT x]; on
    [WONT x] and on [DONT x] it uses up the option byte and writes
    nothing.  The matcher appends nothing for the three bytes: from any
    buffer content its loop goes on with the same buffer, and
    [readUntilAny] returns what it returns on the connection the filter
    left. *)
Theorem filter_refuses_options (conn : Conn) (x : byte) (rest : list ReadEv)
    (targets : list gostring) (buf : gostring) (fuel : nat) :
  let answered p := fst (Write (set_rd conn rest) p) in
  (handleIAC (pending conn [DO; x] rest) IAC = (answered [IAC; WONT; x], true)
   /\ rd (answered [IAC; WONT; x]) = rest
   /\ wlog (answered [IAC; WONT; x]) = wlog conn ++ [[IAC; WONT; x]]
   /\ readUntilAny_loop (S fuel) (pending conn [IAC; DO; x] rest) targets buf
      = readUntilAny_loop fuel (answered [IAC; WONT; x]) targets buf
   /\ readUntilAny (pending conn [IAC; DO; x] rest) targets
      = readUntilAny (answered [IAC; WONT; x]) targets)
  /\
  (handleIAC (pending conn [WILL; x] rest) IAC = (answered [IAC; DONT; x], true)
   /\ rd (answered [IAC; DONT; x]) = rest
   /\ wlog (answered [IAC; DONT; x]) = wlog conn ++ [[IAC; DONT; x]]
   /\ readUntilAny_loop (S fuel) (pending conn [IAC; WILL; x] rest) targets buf
      = readUntilAny_loop fuel (answered [IAC; DONT; x]) targets buf
   /\ readUntilAny (pending conn [IAC; WILL; x] rest) targets
      = readUntilAny (answered [IAC; DONT; x]) targets)
  /\
  (handleIAC (pending conn [WONT; x] rest) IAC = (set_rd conn rest, true)
   /\ readUntilAny_loop (S fuel) (pending conn [IAC; WONT; x] rest) targets buf
      = readUntilAny_loop fuel (set_rd conn rest) targets buf
   /\ readUntilAny (pending conn [IAC; WONT; x] rest) targets
      = readUntilAny (set_rd conn rest) targets)
  /\
  (handleIAC (pending conn [DONT; x] rest) IAC = (set_rd conn rest, true)
   /\ readUntilAny_loop (S fuel) (pending conn [IAC; DONT; x] rest) targets buf
      = readUntilAny_loop fuel (set_rd conn rest) targets buf
   /\ readUntilAny (pending conn [IAC; DONT; x] rest) targets
      = readUntilAny (set_rd conn rest) targets).
Proof.
  intros answered.
  assert (HDO : handleIAC (pending conn [DO; x] rest) IAC
                = (answered [IAC; WONT; x], true)) by reflexivity.
  assert (HWILL : handleIAC (pending conn [WILL; x] rest) IAC
                  = (answered [IAC; DONT; x], true)) by reflexivity.
  assert (HWONT : handleIAC (pending conn [WONT; x] rest) IAC
                  = (set_rd conn rest, true)) by reflexivity.
  assert (HDONT : handleIAC (pending conn [DONT; x] rest) IAC
                  = (set_rd conn rest, true)) by reflexivity.
  repeat split; try assumption;
    rewrite ?loop_pending_IAC, ?readUntilAny_pending_IAC,
            ?HDO, ?HWILL, ?HWONT, ?HDONT;
    reflexivity.
Qed.

(** A failed read of the command byte ends the filter before anything
    is written, and so does a failed read inside a subnegotiation: the
    byte is reported handled and the log is as it was. *)
Lemma filter_stops_on_failed_command_read (conn : Conn) (e : error)
    (rest : list ReadEv) :
  handleIAC (set_rd conn (failed e :: rest)) IAC = (set_rd conn rest, true)
  /\ handleIAC (set_rd conn []) IAC = (set_rd conn [], true)
  /\ handleIAC (set_rd conn (delivered SB :: failed e :: rest)) IAC
     = (set_rd conn rest, true)
  /\ handleIAC (set_rd conn (delivered SB :: delivered IAC :: failed e :: rest))
       IAC
     = (set_rd conn rest, true).
Proof.
  repeat split; unfold handleIAC; simpl; destruct rest; reflexivity.
Qed.

(** The filter handles every [IAC] and nothing else, read errors or
    not, and gives no error back. *)
Lemma filter_handles_exactly_IAC (conn : Conn) (firstByte : byte) :
  snd (handleIAC conn firstByte) = true <-> firstByte = IAC.
Proof. rewrite handleIAC_handled. apply byte_eqb_eq. Qed.

(** C7, at the input where the code departs from it.  The read of the
    option byte after [IAC DO] fails (here: the connection is at its
    end, or the read gives an error [e]); the filter reports the byte
    handled, but it has written a refusal, for option 0. *)
Theorem filter_replies_after_failed_option_read (conn : Conn) (e : error)
    (rest : list ReadEv) :
  handleIAC (set_rd conn [delivered DO]) IAC
    = (fst (Write (set_rd conn []) [IAC; WONT; x00]), true)
  /\ wlog (fst (handleIAC (set_rd conn [delivered DO]) IAC))
     = wlog conn ++ [[IAC; WONT; x00]]
  /\ handleIAC (set_rd conn (delivered DO :: failed e :: rest)) IAC
     = (fst (Write (set_rd conn rest) [IAC; WONT; x00]), true)
  /\ handleIAC (set_rd conn (delivered WILL :: failed e :: rest)) IAC
     = (fst (Write (set_rd conn rest) [IAC; DONT; x00]), true).
Proof. repeat split. Qed.

End Filter.

(* ================================================================== *)
(** * The prompt matcher                                               *)
(* ================================================================== *)

Section Matcher.
Import Go Telnet.

(** [readUntilAny] on a connection that first delivers the bytes
    [pre], none of them [IAC] and none completing a target: the loop
    stands at [rest] with [pre] in the buffer. *)
Lemma readUntilAny_plain (conn : Conn) (targets : list gostring)
    (pre : gostring) (rest : list ReadEv) :
  rd conn = map delivered pre ++ rest ->
  ~ In IAC pre ->
  (forall k, 0 < k <= List.length pre ->
     forall t, In t targets -> Contains (firstn k pre) t = false) ->
  Some (readUntilAny conn targets) =
    readUntilAny_loop (S (List.length rest)) (set_rd conn rest) targets pre.
Proof.
  intros Hrd Hiac Hno. rewrite <- readUntilAny_total.
  rewrite Hrd at 1. rewrite length_app, length_map, plus_n_Sm.
  rewrite (@loop_plain pre _ conn targets [] rest Hrd Hiac); [reflexivity|].
  intros k Hk. apply firstContained_None. exact (Hno k Hk).
Qed.

(** ... and when the next byte [b] completes a target, the call
    returns there. *)
Lemma readUntilAny_plain_match (conn : Conn) (targets : list gostring)
    (pre : gostring) (b : byte) (rest : list ReadEv) :
  rd conn = map delivered (pre ++ [b]) ++ rest ->
  ~ In IAC (pre ++ [b]) ->
  (forall k, 0 < k <= List.length pre ->
     forall u, In u targets -> Contains (firstn k pre) u = false) ->
  (exists t, In t targets /\ Contains (pre ++ [b]) t = true) ->
  readUntilAny conn targets = (set_rd conn rest, pre ++ [b], None).
Proof.
  intros Hrd Hiac Hno Hex.
  rewrite map_app, <- app_assoc in Hrd. simpl in Hrd.
  assert (Hpre : ~ In IAC pre).
  { intros Hin. apply Hiac, in_or_app. now left. }
  pose proof (readUntilAny_plain conn targets pre _ Hrd Hpre Hno) as H.
  rewrite (@loop_data_byte _ (set_rd conn (delivered b :: rest)) targets
             pre (delivered b) rest b eq_refl eq_refl) in H.
  2:{ intros ->. apply Hiac, in_or_app. right. now left. }
  apply firstContained_exists in Hex.
  destruct (firstContained (pre ++ [b]) targets); [|congruence].
  now injection H.
Qed.

(** C4.  First part, whatever the connection brings: when
    [readUntilAny] returns [s] and no error, [s] is not empty, no
    target is in any shorter non-empty prefix of [s] (the buffer after
    each earlier append), and the target [t] at which the scan stops is
    the first of the list that [s] contains, its occurrence ending with
    the last byte of [s].  Second part, for bytes delivered one by one:
    when [pre ++ [b]] is the shortest non-empty prefix of the input
    that contains a target, [readUntilAny] returns exactly [pre ++ [b]]
    and no error, and leaves the rest unread. *)
Theorem readUntilAny_returns_at_first_match :
  (forall (conn : Conn) (targets : list gostring) (c' : Conn) (s : gostring),
     readUntilAny conn targets = (c', s, None) ->
     s <> [] /\
     (forall k, 0 < k < List.length s ->
        forall u, In u targets -> Contains (firstn k s) u = false) /\
     exists t before after,
       firstContained s targets = Some t /\
       targets = before ++ t :: after /\
       Contains s t = true /\
       (forall u, In u before -> Contains s u = false) /\
       (exists lead, s = lead ++ t) /\
       (forall u, In u targets -> Contains s u = true ->
                  exists lead, s = lead ++ u))
  /\
  (forall (conn : Conn) (targets : list gostring) (pre : gostring) (b : byte)
          (rest : list ReadEv),
     rd conn = map delivered (pre ++ [b]) ++ rest ->
     ~ In IAC (pre ++ [b]) ->
     (forall k, 0 < k <= List.length pre ->
        forall u, In u targets -> Contains (firstn k pre) u = false) ->
     (exists t, In t targets /\ Contains (pre ++ [b]) t = true) ->
     readUntilAny conn targets = (set_rd conn rest, pre ++ [b], None) /\
     List.length (pre ++ [b]) = S (List.length pre)).
Proof.
  split.
  - intros conn targets c' s H.
    pose proof (readUntilAny_total conn targets) as Ht. rewrite H in Ht.
    destruct (loop_sound _ _ _ _ Ht) as [ext [Hs [Hk [[Hne Hfc] _]]]].
    simpl in Hs. subst ext.
    assert (Hno : forall k, 0 < k < List.length s ->
              forall u, In u targets -> Contains (firstn k s) u = false).
    { intros k Hlt. apply firstContained_None. exact (Hk k Hlt). }
    split; [exact Hne|]. split; [exact Hno|].
    destruct (firstContained s targets) as [t|] eqn:E; [|congruence].
    pose proof E as E'. apply firstContained_Some in E'.
    destruct E' as [before [after [Htg [Hc Hb]]]].
    exists t, before, after. repeat split; auto.
    + apply first_occurrence_is_suffix; [exact Hc|].
      intros k Hlt. apply (Hno k Hlt). rewrite Htg. apply in_elt.
    + intros u Hu Hcu. apply first_occurrence_is_suffix; [exact Hcu|].
      intros k Hlt. now apply (Hno k Hlt).
  - intros conn targets pre b rest Hrd Hiac Hno Hex.
    split; [|rewrite length_app; simpl; lia].
    now apply readUntilAny_plain_match.
Qed.

Lemma readUntilAny_returns_at_first_match_witness :
  let conn := fresh (map delivered (str "xab")) in
  (readUntilAny conn [str "ab"] = (set_rd conn [], str "xab", None) /\
   List.length (str "xab") = 3) /\
  str "xab" <> [].
Proof.
  intros conn. split.
  - apply (proj2 readUntilAny_returns_at_first_match
             conn [str "ab"] (str "xa") "b"%byte []).
    + reflexivity.
    + simpl. intros [H|[H|[H|[]]]]; discriminate.
    + intros k Hk u [<-|[]].
      destruct k as [|[|[|k]]]; try (simpl in Hk; lia); reflexivity.
    + exists (str "ab"). split; [now left | reflexivity].
  - apply (proj1 readUntilAny_returns_at_first_match
             conn [str "ab"] (set_rd conn [])).
    reflexivity.
Defined.

(** C6.  First part, whatever the connection brings: an error
    [readUntilAny] returns is the error of a read wrapped by
    [fmt.Errorf], its message naming the list of targets, and the
    string returned with it holds no target.  Second part: when the
    bytes [pre] have been appended without a match and the next read
    fails with [e] (a failure, or the deadline passed), the call returns
    [pre] and the wrapped [e]; likewise when the connection is at its
    end.  Third part, at any iteration of the loop, whatever was read
    before: with [buf] in the buffer, a read that fails without a byte
    makes the loop return [buf] and the wrapped error. *)
Theorem readUntilAny_read_error :
  (forall (conn : Conn) (targets : list gostring) (c' : Conn) (s : gostring)
          (err : error),
     readUntilAny conn targets = (c', s, Some err) ->
     (exists e,
        err = readError targets e /\
        Error err = str "read error waiting for " ++ fmt_v targets
                    ++ str ": " ++ Error e /\
        Unwrap err = Some e) /\
     (forall k, 0 < k <= List.length s ->
        forall u, In u targets -> Contains (firstn k s) u = false))
  /\
  (forall (conn : Conn) (targets : list gostring) (pre : gostring)
          (e : error) (rest : list ReadEv),
     rd conn = map delivered pre ++ failed e :: rest ->
     ~ In IAC pre ->
     (forall k, 0 < k <= List.length pre ->
        forall u, In u targets -> Contains (firstn k pre) u = false) ->
     readUntilAny conn targets
       = (set_rd conn rest, pre, Some (readError targets e)))
  /\
  (forall (conn : Conn) (targets : list gostring) (pre : gostring),
     rd conn = map delivered pre ->
     ~ In IAC pre ->
     (forall k, 0 < k <= List.length pre ->
        forall u, In u targets -> Contains (firstn k pre) u = false) ->
     readUntilAny conn targets
       = (set_rd conn [], pre, Some (readError targets (rd_end conn))))
  /\
  (forall (fuel : nat) (conn : Conn) (targets : list gostring)
          (buf : gostring) (e : error) (rest : list ReadEv),
     readUntilAny_loop (S fuel) (set_rd conn (failed e :: rest)) targets buf
       = Some (set_rd conn rest, buf, Some (readError targets e)) /\
     readUntilAny_loop (S fuel) (set_rd conn []) targets buf
       = Some (set_rd conn [], buf, Some (readError targets (rd_end conn)))).
Proof.
  split; [|split; [|split]].
  - intros conn targets c' s err H.
    pose proof (readUntilAny_total conn targets) as Ht. rewrite H in Ht.
    destruct (loop_sound _ _ _ _ Ht) as [ext [Hs [Hk [[Hne [e He]] _]]]].
    simpl in Hs. subst ext. split.
    + exists e. subst err. now repeat split.
    + intros k Hlt. apply firstContained_None.
      destruct (Nat.eq_dec k (List.length s)) as [->|Hneq].
      * rewrite firstn_all. apply Hne. intros ->. simpl in Hlt. lia.
      * apply Hk. lia.
  - intros conn targets pre e rest Hrd Hiac Hno.
    pose proof (readUntilAny_plain conn targets pre _ Hrd Hiac Hno) as H.
    rewrite (@loop_no_byte _ (set_rd conn (failed e :: rest)) targets pre
               (failed e) rest eq_refl eq_refl) in H.
    now injection H.
  - intros conn targets pre Hrd Hiac Hno.
    rewrite <- (app_nil_r (map delivered pre)) in Hrd.
    pose proof (readUntilAny_plain conn targets pre _ Hrd Hiac Hno) as H.
    rewrite (@loop_at_end _ (set_rd conn []) targets pre eq_refl) in H.
    now injection H.
  - intros fuel conn targets buf e rest. split; reflexivity.
Qed.

Lemma readUntilAny_read_error_witness :
  let timeout := ErrNew (str "i/o timeout") in
  let conn := fresh (map delivered (str "lo") ++ [failed timeout]) in
  readUntilAny conn [str "ogin:"]
    = (set_rd conn [], str "lo", Some (readError [str "ogin:"] timeout)) /\
  Error (readError [str "ogin:"] timeout)
    = str "read error waiting for [ogin:]: i/o timeout".
Proof.
  intros timeout conn. split; [|reflexivity].
  apply (proj1 (proj2 readUntilAny_read_error)
           conn [str "ogin:"] (str "lo") timeout []).
  - reflexivity.
  - simpl. intros [H|[H|[]]]; discriminate.
  - intros k Hk u [<-|[]].
    destruct k as [|[|[|k]]]; try (simpl in Hk; lia); reflexivity.
Defined.

(** C9.  A read that gives the byte [b] (not [IAC]) together with an
    error [e]: [b] is appended and the buffer scanned before the error
    is looked at.  When [b] completes a target the call returns the
    buffer and no error, and [e] is dropped; when no target is in the
    buffer after the append, the call returns the buffer and the
    wrapped [e].  The same at any iteration of the loop, with [buf] in
    the buffer.  And an error is only ever returned with a buffer that
    holds no target. *)
Theorem readUntilAny_match_before_error :
  (forall (conn : Conn) (targets : list gostring) (pre : gostring) (b : byte)
          (e : error) (rest : list ReadEv),
     rd conn = map delivered pre ++ delivered_failing b e :: rest ->
     ~ In IAC (pre ++ [b]) ->
     (forall k, 0 < k <= List.length pre ->
        forall u, In u targets -> Contains (firstn k pre) u = false) ->
     ((exists t, In t targets /\ Contains (pre ++ [b]) t = true) ->
      readUntilAny conn targets = (set_rd conn rest, pre ++ [b], None)) /\
     ((forall t, In t targets -> Contains (pre ++ [b]) t = false) ->
      readUntilAny conn targets
        = (set_rd conn rest, pre ++ [b], Some (readError targets e))))
  /\
  (forall (fuel : nat) (conn : Conn) (targets : list gostring)
          (buf : gostring) (b : byte) (e : error) (rest : list ReadEv),
     b <> IAC ->
     readUntilAny_loop (S fuel)
       (set_rd conn (delivered_failing b e :: rest)) targets buf
     = Some (set_rd conn rest, buf ++ [b],
             match firstContained (buf ++ [b]) targets with
             | Some _ => None
             | None => Some (readError targets e)
             end))
  /\
  (forall (conn : Conn) (targets : list gostring) (c' : Conn) (s : gostring)
          (err : error),
     readUntilAny conn targets = (c', s, Some err) ->
     s <> [] -> forall t, In t targets -> Contains s t = false).
Proof.
  split; [|split].
  2:{ intros fuel conn targets buf b e rest Hb.
      rewrite (@loop_data_byte fuel
                 (set_rd conn (delivered_failing b e :: rest)) targets buf
                 (delivered_failing b e) rest b eq_refl eq_refl Hb).
      now destruct (firstContained (buf ++ [b]) targets). }
  - intros conn targets pre b e rest Hrd Hiac Hno.
    assert (Hpre : ~ In IAC pre).
    { intros Hin. apply Hiac, in_or_app. now left. }
    pose proof (readUntilAny_plain conn targets pre _ Hrd Hpre Hno) as H.
    rewrite (@loop_data_byte _ (set_rd conn (delivered_failing b e :: rest))
               targets pre (delivered_failing b e) rest b
               eq_refl eq_refl) in H.
    2:{ intros ->. apply Hiac, in_or_app. right. now left. }
    split.
    + intros Hex. apply firstContained_exists in Hex.
      destruct (firstContained (pre ++ [b]) targets); [|congruence].
      now injection H.
    + intros Hnone. apply firstContained_None in Hnone.
      rewrite Hnone in H. now injection H.
  - intros conn targets c' s err H Hs.
    pose proof (readUntilAny_total conn targets) as Ht. rewrite H in Ht.
    destruct (loop_sound _ _ _ _ Ht) as [ext [Hext [_ [[Hne _] _]]]].
    simpl in Hext. subst ext. apply firstContained_None. now apply Hne.
Qed.

Lemma readUntilAny_match_before_error_witness :
  let timeout := ErrNew (str "i/o timeout") in
  let conn := fresh (map delivered (str "a") ++ [delivered_failing "b" timeout])
  in
  readUntilAny conn [str "ab"] = (set_rd conn [], str "ab", None) /\
  readUntilAny conn [str "abc"]
    = (set_rd conn [], str "ab", Some (readError [str "abc"] timeout)).
Proof.
  intros timeout conn. split.
  - apply (proj1 readUntilAny_match_before_error
             conn [str "ab"] (str "a") "b"%byte timeout []).
    + reflexivity.
    + simpl. intros [H|[H|[]]]; discriminate.
    + intros k Hk u [<-|[]].
      destruct k as [|[|k]]; try (simpl in Hk; lia); reflexivity.
    + exists (str "ab"). split; [now left | reflexivity].
  - apply (proj1 readUntilAny_match_before_error
             conn [str "abc"] (str "a") "b"%byte timeout []).
    + reflexivity.
    + simpl. intros [H|[H|[]]]; discriminate.
    + intros k Hk u [<-|[]].
      destruct k as [|[|k]]; try (simpl in Hk; lia); reflexivity.
    + intros t [<-|[]]. reflexivity.
Defined.

(** C5, as stated, fails: the string the second wait returns does not
    start with the string the first wait returned. *)
Lemma buffer_persists_counterexample :
  let conn := fresh (map delivered (str "login: Password: ")) in
  exists c1 c2,
    readUntilAny conn [str "ogin:"] = (c1, str "login:", None) /\
    readUntilAny c1 [str "assword:"] = (c2, str " Password:", None) /\
    ~ (exists ext, str " Password:" = str "login:" ++ ext).
Proof.
  intros conn.
  exists (set_rd conn (map delivered (str " Password: "))),
         (set_rd conn (map delivered (str " "))).
  split; [reflexivity|]. split; [reflexivity|].
  intros [ext H]. discriminate H.
Qed.

(** C5, amended.  Every wait starts from an empty buffer: when the
    input is the shortest match [pre1 ++ [b1]] of the first wait
    followed by the shortest match [pre2 ++ [b2]] of the second, the
    first wait returns [pre1 ++ [b1]] and the second returns
    [pre2 ++ [b2]] alone, the bytes appended during that call. *)
Theorem each_wait_starts_empty (conn : Conn) (targets1 targets2 : list gostring)
    (pre1 pre2 : gostring) (b1 b2 : byte) (rest : list ReadEv) :
  rd conn = map delivered ((pre1 ++ [b1]) ++ (pre2 ++ [b2])) ++ rest ->
  ~ In IAC ((pre1 ++ [b1]) ++ (pre2 ++ [b2])) ->
  (forall k, 0 < k <= List.length pre1 ->
     forall u, In u targets1 -> Contains (firstn k pre1) u = false) ->
  (exists t, In t targets1 /\ Contains (pre1 ++ [b1]) t = true) ->
  (forall k, 0 < k <= List.length pre2 ->
     forall u, In u targets2 -> Contains (firstn k pre2) u = false) ->
  (exists t, In t targets2 /\ Contains (pre2 ++ [b2]) t = true) ->
  let c1 := set_rd conn (map delivered (pre2 ++ [b2]) ++ rest) in
  readUntilAny conn targets1 = (c1, pre1 ++ [b1], None) /\
  readUntilAny c1 targets2 = (set_rd conn rest, pre2 ++ [b2], None).
Proof.
  intros Hrd Hiac Hno1 Hex1 Hno2 Hex2 c1.
  rewrite map_app, <- app_assoc in Hrd.
  split.
  - apply readUntilAny_plain_match; auto.
    intros Hin. apply Hiac, in_or_app. now left.
  - change (set_rd conn rest) with (set_rd c1 rest).
    apply readUntilAny_plain_match; auto.
    intros Hin. apply Hiac, in_or_app. now right.
Qed.

Lemma each_wait_starts_empty_witness :
  let conn := fresh (map delivered (str "abcd")) in
  let c1 := set_rd conn (map delivered (str "cd")) in
  readUntilAny conn [str "b"] = (c1, str "ab", None) /\
  readUntilAny c1 [str "d"] = (set_rd conn [], str "cd", None).
Proof.
  intros conn c1.
  apply (@each_wait_starts_empty conn [str "b"] [str "d"]
           (str "a") (str "c") "b"%byte "d"%byte []).
  - reflexivity.
  - simpl. intros [H|[H|[H|[H|[]]]]]; discriminate.
  - intros k Hk u [<-|[]].
    destruct k as [|[|k]]; try (simpl in Hk; lia); reflexivity.
  - exists (str "b"). split; [now left | reflexivity].
  - intros k Hk u [<-|[]].
    destruct k as [|[|k]]; try (simpl in Hk; lia); reflexivity.
  - exists (str "d"). split; [now left | reflexivity].
Defined.

End Matcher.

(* ================================================================== *)
(** * The plain-line variant: lines and loops                          *)
(* ================================================================== *)

Section PlainLineFacts.
Import Go PlainLine.

Lemma ReadString_from_length (items : list Item) (end_err : error)
    (delim : byte) (line : gostring) :
  let '(rest, _, err) := ReadString_from items end_err delim line in
  List.length rest <= List.length items /\
  (err = None -> List.length rest < List.length items).
Proof.
  revert line. induction items as [|it items IH]; intros line; simpl.
  - split; [lia | discriminate].
  - destruct it as [b|e].
    + destruct (byte_eqb b delim).
      * split; lia.
      * specialize (IH (line ++ [b])).
        destruct (ReadString_from items end_err delim (line ++ [b]))
          as [[rest l] err].
        destruct IH as [H1 H2]. split; [lia|]. intros H. specialize (H2 H). lia.
    + split; [lia | discriminate].
Qed.

(** A [ReadString] only reads; a line read without error has used up
    at least an item. *)
Lemma ReadString_frame (c c' : Conn) (delim : byte) (line : gostring)
    (err : option error) :
  ReadString c delim = (c', line, err) ->
  wlog c' = wlog c /\ rd_end c' = rd_end c /\ closed c' = closed c /\
  List.length (rd c') <= List.length (rd c) /\
  (err = None -> List.length (rd c') < List.length (rd c)).
Proof.
  unfold ReadString.
  pose proof (ReadString_from_length (rd c) (rd_end c) delim []) as H.
  destruct (ReadString_from (rd c) (rd_end c) delim []) as [[rest l] e].
  intros E. injection E as <- <- <-. simpl. tauto.
Qed.

Lemma promptLoop_step (fuel : nat) (conn : Conn) (prompt answer : gostring) :
  promptLoop (S fuel) conn prompt answer =
    let '(conn, line, err) := ReadString conn newline in
    match err with
    | Some _ => Some (conn, Some (Errorf (str "context deadline is not set")))
    | None =>
      if Contains line prompt
      then Some (Fprintf conn (answer ++ [newline]), None)
      else promptLoop fuel conn prompt answer
    end.
Proof. reflexivity. Qed.

Lemma outputLoop_step (fuel : nat) (conn : Conn) (result : gostring) :
  outputLoop (S fuel) conn result =
    let '(conn, line, err) := ReadString conn newline in
    match err with
    | Some _ => Some (conn, result)
    | None => outputLoop fuel conn (result ++ line)
    end.
Proof. reflexivity. Qed.

(** The loops end within [S (length (rd conn))] iterations. *)
Lemma promptLoop_total (fuel : nat) (conn : Conn) (prompt answer : gostring) :
  List.length (rd conn) < fuel ->
  exists r, promptLoop fuel conn prompt answer = Some r.
Proof.
  revert conn. induction fuel as [|fuel IH]; intros conn Hlen; [lia|].
  rewrite promptLoop_step.
  destruct (ReadString conn newline) as [[c1 line] err] eqn:HR.
  apply ReadString_frame in HR. destruct HR as [_ [_ [_ [_ Hlt]]]].
  destruct err; [eauto|].
  destruct (Contains line prompt); [eauto|].
  apply IH. specialize (Hlt eq_refl). lia.
Qed.

Lemma outputLoop_total (fuel : nat) (conn : Conn) (result : gostring) :
  List.length (rd conn) < fuel ->
  exists r, outputLoop fuel conn result = Some r.
Proof.
  revert conn result. induction fuel as [|fuel IH]; intros conn result Hlen;
    [lia|].
  rewrite outputLoop_step.
  destruct (ReadString conn newline) as [[c1 line] err] eqn:HR.
  apply ReadString_frame in HR. destruct HR as [_ [_ [_ [_ Hlt]]]].
  destruct err; [eauto|].
  apply IH. specialize (Hlt eq_refl). lia.
Qed.

Lemma waitPrompt_total (conn : Conn) (prompt answer : gostring) :
  promptLoop (S (List.length (rd conn))) conn prompt answer =
    Some (waitPrompt conn prompt answer).
Proof.
  unfold waitPrompt.
  destruct (promptLoop_total (fuel := S (List.length (rd conn)))
              conn prompt answer) as [r H]; [lia|].
  now rewrite H.
Qed.

Lemma readOutput_total (conn : Conn) :
  outputLoop (S (List.length (rd conn))) conn [] = Some (readOutput conn).
Proof.
  unfold readOutput.
  destruct (outputLoop_total (fuel := S (List.length (rd conn))) conn [])
    as [r H]; [lia|].
  now rewrite H.
Qed.

(** A prompt loop left by [break] has written the answer and nothing
    else; one that makes [Run] return has written nothing. *)
Lemma promptLoop_wlog (fuel : nat) (conn c' : Conn) (prompt answer : gostring)
    (err : option error) :
  promptLoop fuel conn prompt answer = Some (c', err) ->
  wlog c' = wlog conn ++ match err with
                         | None => [answer ++ [newline]]
                         | Some _ => []
                         end.
Proof.
  revert conn. induction fuel as [|fuel IH]; intros conn H; [discriminate|].
  rewrite promptLoop_step in H.
  destruct (ReadString conn newline) as [[c1 line] e] eqn:HR.
  apply ReadString_frame in HR. destruct HR as [Hw _].
  destruct e.
  - injection H as <- <-. now rewrite app_nil_r.
  - destruct (Contains line prompt).
    + injection H as <- <-. simpl. now rewrite Hw.
    + rewrite <- Hw. now apply IH.
Qed.

Lemma waitPrompt_wlog (conn c' : Conn) (prompt answer : gostring)
    (err : option error) :
  waitPrompt conn prompt answer = (c', err) ->
  wlog c' = wlog conn ++ match err with
                         | None => [answer ++ [newline]]
                         | Some _ => []
                         end.
Proof.
  intros H. pose proof (waitPrompt_total conn prompt answer) as Ht.
  rewrite H in Ht. exact (promptLoop_wlog _ _ _ _ Ht).
Qed.

Lemma outputLoop_wlog (fuel : nat) (conn c' : Conn) (result out : gostring) :
  outputLoop fuel conn result = Some (c', out) -> wlog c' = wlog conn.
Proof.
  revert conn result. induction fuel as [|fuel IH]; intros conn result H;
    [discriminate|].
  rewrite outputLoop_step in H.
  destruct (ReadString conn newline) as [[c1 line] e] eqn:HR.
  apply ReadString_frame in HR. destruct HR as [Hw _].
  destruct e.
  - now injection H as <- <-.
  - rewrite <- Hw. now apply IH with (result ++ line).
Qed.

Lemma readOutput_wlog (conn c' : Conn) (out : gostring) :
  readOutput conn = (c', out) -> wlog c' = wlog conn.
Proof.
  intros H. pose proof (readOutput_total conn) as Ht.
  rewrite H in Ht. exact (outputLoop_wlog _ _ _ Ht).
Qed.

End PlainLineFacts.

(* ================================================================== *)
(** * The option-aware probe                                           *)
(* ================================================================== *)

Section TelnetProbe.
Import Go Telnet.

Lemma writes_only_refl (P : gostring -> Prop) (c : Conn) : writes_only P c c.
Proof. exists []. split; [now rewrite app_nil_r | constructor]. Qed.

Lemma writes_only_trans (P : gostring -> Prop) (c1 c2 c3 : Conn) :
  writes_only P c1 c2 -> writes_only P c2 c3 -> writes_only P c1 c3.
Proof.
  intros [w1 [H1 F1]] [w2 [H2 F2]]. exists (w1 ++ w2). split.
  - now rewrite H2, H1, app_assoc.
  - apply Forall_app. now split.
Qed.

Lemma readUntilAny_writes (conf : Schema) (conn c' : Conn)
    (targets : list gostring) (s : gostring) (r : option error) :
  readUntilAny conn targets = (c', s, r) ->
  writes_only (probe_payload conf) conn c'.
Proof.
  intros H. pose proof (readUntilAny_total conn targets) as Ht.
  rewrite H in Ht.
  destruct (loop_sound _ _ _ _ Ht) as [_ [_ [_ [_ [w [A F]]]]]].
  exists w. split; [apply A|].
  eapply Forall_impl; [|exact F]. intros p Hp. now left.
Qed.

Lemma sendLine_writes (P : gostring -> Prop) (conn c' : Conn)
    (line : gostring) (r : option error) :
  sendLine conn line = (c', r) -> P (line ++ [x0d; x0a]) ->
  writes_only P conn c'.
Proof.
  unfold sendLine, Write. intros H HP. injection H as <- _.
  exists [line ++ [x0d; x0a]]. split; [reflexivity | now constructor].
Qed.

(** Everything the exchange writes is a refusal, the user name line or
    the command line. *)
Lemma exchange_writes (conf : Schema) (d : Z) (conn c' : Conn)
    (err : option error) :
  exchange conf d conn = (err, c') ->
  writes_only (probe_payload conf) conn c'.
Proof.
  unfold exchange. cbv zeta.
  assert (W0 : writes_only (probe_payload conf) conn (SetDeadline conn d)).
  { exists []. split; [simpl; now rewrite app_nil_r | constructor]. }
  revert W0. generalize (SetDeadline conn d). intros k0 W0.
  assert (HU : probe_payload conf (Username conf ++ [x0d; x0a]))
    by (right; now left).
  assert (HC : probe_payload conf (Command conf ++ [x0d; x0a]))
    by (right; now right).
  destruct (readUntilAny k0 [str "ogin:"]) as [[k1 s1] e1] eqn:E1.
  pose proof (writes_only_trans W0 (@readUntilAny_writes conf _ _ _ _ _ E1)) as W1.
  destruct e1; [intros H; now injection H as <- <-|].
  destruct (sendLine k1 (Username conf)) as [k2 e2] eqn:E2.
  pose proof (writes_only_trans W1 (@sendLine_writes _ _ _ _ _ E2 HU)) as W2.
  destruct e2; [intros H; now injection H as <- <-|].
  destruct (readUntilAny k2 [str "assword:"]) as [[k3 s3] e3] eqn:E3.
  pose proof (writes_only_trans W2 (@readUntilAny_writes conf _ _ _ _ _ E3)) as W3.
  destruct e3; [intros H; now injection H as <- <-|].
  destruct (sendLine k3 (Username conf)) as [k4 e4] eqn:E4.
  pose proof (writes_only_trans W3 (@sendLine_writes _ _ _ _ _ E4 HU)) as W4.
  destruct e4; [intros H; now injection H as <- <-|].
  destruct (readUntilAny k4 shellPrompts) as [[k5 s5] e5] eqn:E5.
  pose proof (writes_only_trans W4 (@readUntilAny_writes conf _ _ _ _ _ E5)) as W5.
  destruct e5; [intros H; now injection H as <- <-|].
  destruct (sendLine k5 (Command conf)) as [k6 e6] eqn:E6.
  pose proof (writes_only_trans W5 (@sendLine_writes _ _ _ _ _ E6 HC)) as W6.
  destruct e6; [intros H; now injection H as <- <-|].
  destruct (readUntilAny k6 shellPrompts) as [[k7 s7] e7] eqn:E7.
  pose proof (writes_only_trans W6 (@readUntilAny_writes conf _ _ _ _ _ E7)) as W7.
  destruct e7; [intros H; now injection H as <- <-|].
  destruct (negb (Contains s7 (ExpectedOutput conf)));
    intros H; now injection H as <- <-.
Qed.

(** The exchange does not look at the password. *)
Lemma exchange_ignores_password (conf conf' : Schema) (d : Z) (conn : Conn) :
  Username conf' = Username conf ->
  Command conf' = Command conf ->
  ExpectedOutput conf' = ExpectedOutput conf ->
  exchange conf' d conn = exchange conf d conn.
Proof.
  intros HU HC HE. unfold exchange. now rewrite HU, HC, HE.
Qed.

(** C3.  First part: once the password prompt is matched, the next
    payload written on the connection is the user name followed by CR
    LF.  Second part: everything [Run] writes is a refusal of the
    filter, the user name line or the command line.  Third part: [Run]
    does not depend on the password, two configurations that differ in
    the password only give the same return and the same connection. *)
Theorem password_step_sends_username
    (Unmarshal : gostring -> Schema + error) (dial : gostring -> Conn + error)
    (ctx : Context) (config : gostring) (conf : Schema) (d : Z) (c0 : Conn) :
  Unmarshal config = inl conf ->
  ctx_deadline ctx = Some d ->
  dial (Server conf ++ str ":" ++ Itoa (Port conf)) = inl c0 ->
  (forall c1 s1 c2 c3 s2,
     readUntilAny (SetDeadline c0 d) [str "ogin:"] = (c1, s1, None) ->
     sendLine c1 (Username conf) = (c2, None) ->
     readUntilAny c2 [str "assword:"] = (c3, s2, None) ->
     exists err cfin later,
       Run Unmarshal dial ctx config
         = (err, Connected (Server conf ++ str ":" ++ Itoa (Port conf)) cfin)
       /\ wlog cfin = wlog c3 ++ (Username conf ++ [x0d; x0a]) :: later)
  /\
  (exists err cfin,
     Run Unmarshal dial ctx config
       = (err, Connected (Server conf ++ str ":" ++ Itoa (Port conf)) cfin)
     /\ writes_only (probe_payload conf) c0 cfin)
  /\
  (forall config' conf',
     Unmarshal config' = inl conf' ->
     Server conf' = Server conf -> Port conf' = Port conf ->
     Username conf' = Username conf -> Command conf' = Command conf ->
     ExpectedOutput conf' = ExpectedOutput conf ->
     Run Unmarshal dial ctx config' = Run Unmarshal dial ctx config).
Proof.
  intros HU Hd Hdial. split; [|split].
  - intros c1 s1 c2 c3 s2 H1 H2 H3.
    unfold Run. rewrite HU, Hd. cbv zeta. rewrite Hdial.
    destruct (exchange conf d c0) as [err cfin] eqn:HX.
    exists err, (Close cfin).
    revert HX. unfold exchange. cbv zeta. rewrite H1. cbv beta iota.
    rewrite H2. cbv beta iota. rewrite H3. cbv beta iota.
    destruct (sendLine c3 (Username conf)) as [k4 e4] eqn:E4.
    assert (W4 : wlog k4 = wlog c3 ++ [Username conf ++ [x0d; x0a]]).
    { unfold sendLine, Write in E4. now injection E4 as <- _. }
    intros HX.
    assert (W : writes_only (fun _ => True) k4 cfin).
    { revert HX.
      destruct e4; [intros H; injection H as <- <-; apply writes_only_refl|].
      destruct (readUntilAny k4 shellPrompts) as [[k5 s5] e5] eqn:E5.
      assert (W5 : writes_only (fun _ : gostring => True) k4 k5).
      { destruct (@readUntilAny_writes conf _ _ _ _ _ E5) as [w [Hw _]].
        exists w. split; [exact Hw | now apply Forall_forall]. }
      destruct e5; [intros H; now injection H as <- <-|].
      destruct (sendLine k5 (Command conf)) as [k6 e6] eqn:E6.
      pose proof (writes_only_trans W5
                    (@sendLine_writes (fun _ => True) _ _ _ _ E6 I)) as W6.
      destruct e6; [intros H; now injection H as <- <-|].
      destruct (readUntilAny k6 shellPrompts) as [[k7 s7] e7] eqn:E7.
      assert (W7 : writes_only (fun _ : gostring => True) k4 k7).
      { apply (writes_only_trans W6).
        destruct (@readUntilAny_writes conf _ _ _ _ _ E7) as [w [Hw _]].
        exists w. split; [exact Hw | now apply Forall_forall]. }
      destruct e7; [intros H; now injection H as <- <-|].
      destruct (negb (Contains s7 (ExpectedOutput conf)));
        intros H; now injection H as <- <-. }
    destruct W as [later [Hl _]].
    exists later. split; [reflexivity|].
    simpl. rewrite Hl, W4, <- app_assoc. reflexivity.
  - unfold Run. rewrite HU, Hd. cbv zeta. rewrite Hdial.
    destruct (exchange conf d c0) as [err cfin] eqn:HX.
    exists err, (Close cfin). split; [reflexivity|].
    destruct (exchange_writes _ _ _ HX) as [w [Hw F]].
    exists w. now split.
  - intros config' conf' HU' HS HP HN HC HE.
    unfold Run. rewrite HU, HU', Hd. cbv zeta. rewrite HS, HP.
    destruct (dial (Server conf ++ str ":" ++ Itoa (Port conf)));
      [|reflexivity].
    now rewrite (exchange_ignores_password conf conf' d c HN HC HE).
Qed.

Lemma password_step_sends_username_witness :
  (exists err cfin later,
     Run Scenario.telnet_Unmarshal Scenario.telnet_dial Scenario.ctx []
       = (err, Connected (str "host:23") cfin) /\
     wlog cfin = [str "alice" ++ [x0d; x0a]]
                 ++ (str "alice" ++ [x0d; x0a]) :: later) /\
  (exists err cfin,
     Run Scenario.telnet_Unmarshal Scenario.telnet_dial Scenario.ctx []
       = (err, Connected (str "host:23") cfin) /\
     writes_only (probe_payload Scenario.telnet_conf)
       Scenario.telnet_peer cfin).
Proof.
  pose proof (@password_step_sends_username
                Scenario.telnet_Unmarshal Scenario.telnet_dial Scenario.ctx []
                Scenario.telnet_conf 30%Z Scenario.telnet_peer
                eq_refl eq_refl eq_refl) as [H1 [H2 _]].
  split; [|exact H2].
  edestruct H1 as [err [cfin [later [HR HW]]]];
    [vm_compute; reflexivity ..|].
  exists err, cfin, later. split; [exact HR | exact HW].
Defined.

End TelnetProbe.

(* ================================================================== *)
(** * The plain-line probe                                             *)
(* ================================================================== *)

Section PlainLineProbe.
Import Go PlainLine.

(** C8.  The user name and the password have been sent and the next
    [ReadString] gives [line] without error.  If [line] holds "login:",
    [Run] returns the error "Login failed" and the log ends with the
    password line: no command is written.  Otherwise the next payload
    written is the command line, and it is the last one; the command is
    written on the connection that exactly this one [ReadString] left. *)
Theorem login_again_is_rejected
    (Unmarshal : gostring -> Schema + error) (dial : gostring -> Conn + error)
    (ctx : Context) (config : gostring) (conf : Schema) (d : Z)
    (c0 c1 c2 c3 : Conn) (line : gostring) :
  Unmarshal config = inl conf ->
  ctx_deadline ctx = Some d ->
  dial (JoinHostPort (Server conf) (Itoa (Port conf))) = inl c0 ->
  waitPrompt c0 (str "login:") (Username conf) = (c1, None) ->
  waitPrompt c1 (str "Password:") (Password conf) = (c2, None) ->
  ReadString c2 newline = (c3, line, None) ->
  wlog c2 = wlog c0 ++ [Username conf ++ [newline];
                        Password conf ++ [newline]] /\
  (Contains line (str "login:") = true ->
   Run Unmarshal dial ctx config
     = (Some (Errorf (str "Login failed")),
        Connected (JoinHostPort (Server conf) (Itoa (Port conf))) (Close c3))
   /\ wlog (Close c3) = wlog c0 ++ [Username conf ++ [newline];
                                    Password conf ++ [newline]]) /\
  (Contains line (str "login:") = false ->
   exists err c4 result,
     readOutput (Fprintf c3 (Command conf ++ [newline])) = (c4, result) /\
     Run Unmarshal dial ctx config
       = (err, Connected (JoinHostPort (Server conf) (Itoa (Port conf)))
                 (Close c4))
     /\ wlog (Close c4) = wlog c0 ++ [Username conf ++ [newline];
                                      Password conf ++ [newline];
                                      Command conf ++ [newline]]).
Proof.
  intros HU Hd Hdial H1 H2 H3.
  pose proof (waitPrompt_wlog _ _ _ H1) as W1.
  pose proof (waitPrompt_wlog _ _ _ H2) as W2.
  destruct (ReadString_frame _ _ H3) as [W3 _].
  assert (W : wlog c2 = wlog c0 ++ [Username conf ++ [newline];
                                    Password conf ++ [newline]]).
  { rewrite W2, W1, <- app_assoc. reflexivity. }
  split; [exact W|]. split.
  - intros Hc. unfold Run. rewrite HU, Hd. cbv zeta. rewrite Hdial.
    unfold exchange. rewrite H1. cbv beta iota. rewrite H2. cbv beta iota.
    rewrite H3. cbv beta iota. rewrite Hc.
    split; [reflexivity|]. simpl. now rewrite W3.
  - intros Hc.
    destruct (readOutput (Fprintf c3 (Command conf ++ [newline])))
      as [c4 result] eqn:H4.
    pose proof (readOutput_wlog _ H4) as W4.
    unfold Run. rewrite HU, Hd. cbv zeta. rewrite Hdial.
    unfold exchange. rewrite H1. cbv beta iota. rewrite H2. cbv beta iota.
    rewrite H3. cbv beta iota. rewrite Hc. cbv zeta. rewrite H4.
    cbv beta iota.
    assert (Wc : wlog (Close c4) = wlog c0 ++
              [Username conf ++ [newline]; Password conf ++ [newline];
               Command conf ++ [newline]]).
    { simpl. rewrite W4. simpl. rewrite W3, W, <- app_assoc. reflexivity. }
    destruct (negb (string_eqb (TrimSpace result)
                      (TrimSpace (ExpectedOutput conf)))).
    + eexists _, c4, result. now repeat split.
    + eexists _, c4, result. now repeat split.
Qed.

Lemma login_again_is_rejected_witness :
  (exists c3,
     PlainLine.Run Scenario.plain_Unmarshal Scenario.plain_dial_rejecting
       Scenario.ctx []
     = (Some (Errorf (str "Login failed")),
        Connected (str "host:23") (Close c3)) /\
     wlog (Close c3)
     = [str "alice" ++ [newline]; str "secret" ++ [newline]]) /\
  (exists err c4,
     PlainLine.Run Scenario.plain_Unmarshal Scenario.plain_dial
       Scenario.ctx []
     = (err, Connected (str "host:23") (Close c4)) /\
     wlog (Close c4)
     = [str "alice" ++ [newline]; str "secret" ++ [newline];
        str "whoami" ++ [newline]]).
Proof.
  split.
  - edestruct (@login_again_is_rejected
                 Scenario.plain_Unmarshal Scenario.plain_dial_rejecting
                 Scenario.ctx [] Scenario.plain_conf 30%Z
                 Scenario.plain_peer_rejecting) as [_ [H _]];
      [vm_compute; reflexivity ..|].
    eexists. apply H. vm_compute. reflexivity.
  - edestruct (@login_again_is_rejected
                 Scenario.plain_Unmarshal Scenario.plain_dial
                 Scenario.ctx [] Scenario.plain_conf 30%Z
                 Scenario.plain_peer) as [_ [_ H]];
      [vm_compute; reflexivity ..|].
    destruct H as [err [c4 [result [_ [HR HW]]]]];
      [vm_compute; reflexivity|].
    exists err, c4. split; [exact HR | exact HW].
Defined.

End PlainLineProbe.

(* ================================================================== *)
(** * The two variants side by side                                    *)
(* ================================================================== *)

Section Variants.
Import Go.

(** C1.  Option-aware variant: when every step up to the last wait has
    succeeded and the last wait has returned [cmdOutput], [Run] returns
    no error exactly when [cmdOutput] contains the expected output.
    Plain-line variant: when the exchange has reached the comparison
    with [result] gathered, [Run] returns no error exactly when the
    trimmed [result] equals the trimmed expected output.  And the two
    tests differ: "alice", line feed, "$ " contains "alice" but is not
    equal to it after trimming. *)
Theorem pass_decisions_differ :
  (forall (Unmarshal : gostring -> Telnet.Schema + error)
          (dial : gostring -> Telnet.Conn + error)
          (ctx : Context) (config : gostring) (conf : Telnet.Schema) (d : Z)
          (c0 c1 c2 c3 c4 c5 c6 c7 : Telnet.Conn)
          (s1 s2 s3 cmdOutput : gostring),
     Unmarshal config = inl conf ->
     ctx_deadline ctx = Some d ->
     dial (Telnet.Server conf ++ str ":" ++ Itoa (Telnet.Port conf))
       = inl c0 ->
     Telnet.readUntilAny (Telnet.SetDeadline c0 d) [str "ogin:"]
       = (c1, s1, None) ->
     Telnet.sendLine c1 (Telnet.Username conf) = (c2, None) ->
     Telnet.readUntilAny c2 [str "assword:"] = (c3, s2, None) ->
     Telnet.sendLine c3 (Telnet.Username conf) = (c4, None) ->
     Telnet.readUntilAny c4 Telnet.shellPrompts = (c5, s3, None) ->
     Telnet.sendLine c5 (Telnet.Command conf) = (c6, None) ->
     Telnet.readUntilAny c6 Telnet.shellPrompts = (c7, cmdOutput, None) ->
     (fst (Telnet.Run Unmarshal dial ctx config) = None <->
      Contains cmdOutput (Telnet.ExpectedOutput conf) = true))
  /\
  (forall (Unmarshal : gostring -> PlainLine.Schema + error)
          (dial : gostring -> PlainLine.Conn + error)
          (ctx : Context) (config : gostring) (conf : PlainLine.Schema)
          (d : Z) (c0 c1 c2 c3 c4 : PlainLine.Conn) (line result : gostring),
     Unmarshal config = inl conf ->
     ctx_deadline ctx = Some d ->
     dial (JoinHostPort (PlainLine.Server conf) (Itoa (PlainLine.Port conf)))
       = inl c0 ->
     PlainLine.waitPrompt c0 (str "login:") (PlainLine.Username conf)
       = (c1, None) ->
     PlainLine.waitPrompt c1 (str "Password:") (PlainLine.Password conf)
       = (c2, None) ->
     PlainLine.ReadString c2 PlainLine.newline = (c3, line, None) ->
     Contains line (str "login:") = false ->
     PlainLine.readOutput
       (PlainLine.Fprintf c3 (PlainLine.Command conf ++ [PlainLine.newline]))
       = (c4, result) ->
     (fst (PlainLine.Run Unmarshal dial ctx config) = None <->
      TrimSpace result = TrimSpace (PlainLine.ExpectedOutput conf)))
  /\
  (Contains Scenario.alice_output (str "alice") = true /\
   TrimSpace Scenario.alice_output <> TrimSpace (str "alice")).
Proof.
  split; [|split].
  - intros Unmarshal dial ctx config conf d c0 c1 c2 c3 c4 c5 c6 c7
      s1 s2 s3 cmdOutput HU Hd Hdial H1 H2 H3 H4 H5 H6 H7.
    unfold Telnet.Run. rewrite HU, Hd. cbv zeta. rewrite Hdial.
    unfold Telnet.exchange. cbv zeta.
    rewrite H1. cbv beta iota. rewrite H2. cbv beta iota.
    rewrite H3. cbv beta iota. rewrite H4. cbv beta iota.
    rewrite H5. cbv beta iota. rewrite H6. cbv beta iota.
    rewrite H7. cbv beta iota.
    destruct (Contains cmdOutput (Telnet.ExpectedOutput conf)); simpl;
      split; congruence.
  - intros Unmarshal dial ctx config conf d c0 c1 c2 c3 c4 line result
      HU Hd Hdial H1 H2 H3 Hc H4.
    unfold PlainLine.Run. rewrite HU, Hd. cbv zeta. rewrite Hdial.
    unfold PlainLine.exchange.
    rewrite H1. cbv beta iota. rewrite H2. cbv beta iota.
    rewrite H3. cbv beta iota. rewrite Hc. cbv zeta. rewrite H4.
    cbv beta iota.
    destruct (string_eqb (TrimSpace result)
                (TrimSpace (PlainLine.ExpectedOutput conf))) eqn:E; simpl.
    + apply string_eqb_eq in E. split; auto.
    + split; [discriminate|]. intros Heq. apply string_eqb_eq in Heq.
      congruence.
  - split; [reflexivity | discriminate].
Qed.

Lemma pass_decisions_differ_witness :
  (fst (Telnet.Run Scenario.telnet_Unmarshal Scenario.telnet_dial
          Scenario.ctx []) = None <->
   Contains Scenario.alice_output (str "alice") = true) /\
  (fst (PlainLine.Run Scenario.plain_Unmarshal Scenario.plain_dial
          Scenario.ctx []) = None <->
   TrimSpace (str "alice" ++ [x0a]) = TrimSpace (str "alice")).
Proof.
  split.
  - eapply (proj1 pass_decisions_differ
              Scenario.telnet_Unmarshal Scenario.telnet_dial Scenario.ctx []
              Scenario.telnet_conf 30%Z Scenario.telnet_peer);
      vm_compute; reflexivity.
  - eapply (proj1 (proj2 pass_decisions_differ)
              Scenario.plain_Unmarshal Scenario.plain_dial Scenario.ctx []
              Scenario.plain_conf 30%Z Scenario.plain_peer);
      vm_compute; reflexivity.
Defined.

(** C10.  With a context that carries no deadline both [Run] return an
    error, the decoder's or "context deadline is not set", and nothing
    has happened on the network: no dial was attempted, whatever the
    network would have answered. *)
Theorem Run_without_deadline :
  (forall (Unmarshal : gostring -> Telnet.Schema + error)
          (dial : gostring -> Telnet.Conn + error) (config : gostring),
     Telnet.Run Unmarshal dial Scenario.no_deadline config
       = (Some match Unmarshal config with
               | inr err => err
               | inl _ => Errorf (str "context deadline is not set")
               end,
          Telnet.NotDialled))
  /\
  (forall (Unmarshal : gostring -> PlainLine.Schema + error)
          (dial : gostring -> PlainLine.Conn + error) (config : gostring),
     PlainLine.Run Unmarshal dial Scenario.no_deadline config
       = (Some match Unmarshal config with
               | inr err => err
               | inl _ => Errorf (str "context deadline is not set")
               end,
          PlainLine.NotDialled)).
Proof.
  split; intros Unmarshal dial config.
  - unfold Telnet.Run. now destruct (Unmarshal config).
  - unfold PlainLine.Run. now destruct (Unmarshal config).
Qed.

(** ** The scenarios of the specification *)

(** Scenario A: the option-aware probe succeeds, having written the
    user name twice and the command. *)
Example scenario_A :
  exists cfin,
    Telnet.Run Scenario.telnet_Unmarshal Scenario.telnet_dial Scenario.ctx []
      = (None, Telnet.Connected (str "host:23") cfin) /\
    Telnet.wlog cfin = [str "alice" ++ [x0d; x0a]; str "alice" ++ [x0d; x0a];
                        str "whoami" ++ [x0d; x0a]] /\
    Telnet.closed cfin = true /\ Telnet.deadline cfin = Some 30%Z.
Proof. eexists. vm_compute. repeat split. Qed.

(** Scenario B: no password prompt before the deadline. *)
Example scenario_B :
  let peer := Telnet.fresh (map Telnet.delivered (str "login: ")
                            ++ [Telnet.failed Scenario.timeout]) in
  exists cfin,
    Telnet.Run Scenario.telnet_Unmarshal (fun _ => inl peer) Scenario.ctx []
      = (Some (Errorf (str "failed waiting for password prompt: read error waiting for [assword:]: i/o timeout")),
         Telnet.Connected (str "host:23") cfin) /\
    Telnet.closed cfin = true.
Proof. intros peer. eexists. vm_compute. repeat split. Qed.

(** Scenario C: [IAC DO 1] before the login prompt is answered with
    [IAC WONT 1] and leaves no byte in the buffer. *)
Example scenario_C :
  let peer := Telnet.fresh (map Telnet.delivered
                              ([Telnet.IAC; Telnet.DO; x01] ++ str "login:"))
  in
  exists c',
    Telnet.readUntilAny peer [str "ogin:"] = (c', str "login:", None) /\
    Telnet.wlog c' = [[Telnet.IAC; Telnet.WONT; x01]].
Proof. intros peer. eexists. vm_compute. repeat split. Qed.

(** Scenario E: no output and an empty expected output. *)
Example scenario_E :
  let conf := {| PlainLine.Server := str "host"; PlainLine.Port := 23%Z;
                 PlainLine.Username := str "alice";
                 PlainLine.Password := str "secret";
                 PlainLine.Command := str "true";
                 PlainLine.ExpectedOutput := [] |} in
  let peer := {| PlainLine.rd :=
                   Scenario.plain_lines [str "login:"; str "Password:";
                                         str "Welcome"]
                   ++ [PlainLine.Fail Scenario.timeout];
                 PlainLine.rd_end := ErrNew (str "EOF");
                 PlainLine.wlog := []; PlainLine.closed := false |} in
  fst (PlainLine.Run (fun _ => inl conf) (fun _ => inl peer) Scenario.ctx [])
    = None.
Proof. vm_compute. reflexivity. Qed.

End Variants.

(* ================================================================== *)
(** * More on the filter: subnegotiations and other commands           *)
(* ================================================================== *)

Section FilterCases.
Import Go Telnet.

Lemma sb_plain_byte (fuel : nat) (conn : Conn) (one b : byte)
    (rest : list ReadEv) :
  rd conn = delivered b :: rest -> b <> IAC ->
  handleIAC_sb (S fuel) conn one = handleIAC_sb fuel (set_rd conn rest) b.
Proof.
  intros H Hb. apply byte_eqb_neq in Hb.
  cbn [handleIAC_sb]. rewrite (Read_cons _ _ H). cbn [delivered ev_byte ev_err].
  now rewrite Hb.
Qed.

Lemma sb_escaped_byte (fuel : nat) (conn : Conn) (one y : byte)
    (rest : list ReadEv) :
  rd conn = delivered IAC :: delivered y :: rest -> y <> SE ->
  handleIAC_sb (S fuel) conn one = handleIAC_sb fuel (set_rd conn rest) y.
Proof.
  intros H Hy. apply byte_eqb_neq in Hy.
  cbn [handleIAC_sb]. rewrite (Read_cons _ _ H). cbn [delivered ev_byte ev_err].
  rewrite byte_eqb_refl.
  rewrite (@Read_cons (set_rd conn (delivered y :: rest)) IAC (delivered y)
             rest eq_refl).
  cbn [delivered ev_byte ev_err]. now rewrite Hy.
Qed.

Lemma sb_terminator (fuel : nat) (conn : Conn) (one : byte)
    (rest : list ReadEv) :
  rd conn = delivered IAC :: delivered SE :: rest ->
  handleIAC_sb (S fuel) conn one = Some (set_rd conn rest).
Proof.
  intros H.
  cbn [handleIAC_sb]. rewrite (Read_cons _ _ H). cbn [delivered ev_byte ev_err].
  rewrite byte_eqb_refl.
  rewrite (@Read_cons (set_rd conn (delivered SE :: rest)) IAC (delivered SE)
             rest eq_refl).
  cbn [delivered ev_byte ev_err]. now rewrite byte_eqb_refl.
Qed.

Lemma sb_at_end (fuel : nat) (conn : Conn) (one : byte) :
  rd conn = [] -> handleIAC_sb (S fuel) conn one = Some conn.
Proof. intros H. cbn [handleIAC_sb]. now rewrite (Read_nil _ _ H). Qed.

(** The loop passes over a body and leaves at the [IAC SE] behind it. *)
Lemma sb_runs_to_terminator (fuel : nat) (body : list byte) (conn : Conn)
    (one : byte) (rest : list ReadEv) :
  sb_skipped body = true ->
  rd conn = map delivered (body ++ [IAC; SE]) ++ rest ->
  List.length body < fuel ->
  handleIAC_sb fuel conn one = Some (set_rd conn rest).
Proof.
  revert body conn one.
  induction fuel as [|fuel IH]; intros body conn one Hs Hrd Hlen; [lia|].
  destruct body as [|b body].
  - now apply sb_terminator.
  - simpl in Hs, Hrd, Hlen. destruct (byte_eqb b IAC) eqn:Hb.
    + apply byte_eqb_eq in Hb. subst b.
      destruct body as [|y body]; [discriminate|].
      apply andb_true_iff in Hs. destruct Hs as [Hy Hs].
      apply negb_true_iff, byte_eqb_neq in Hy. simpl in Hrd, Hlen.
      rewrite (sb_escaped_byte fuel conn one Hrd Hy).
      rewrite <- (set_rd_set_rd conn (map delivered (body ++ [IAC; SE]) ++ rest)
                    rest).
      apply IH with body; [exact Hs | reflexivity | lia].
    + apply byte_eqb_neq in Hb.
      rewrite (sb_plain_byte fuel conn one Hrd Hb).
      rewrite <- (set_rd_set_rd conn (map delivered (body ++ [IAC; SE]) ++ rest)
                    rest).
      apply IH with body; [exact Hs | reflexivity | lia].
Qed.

(** Without an [IAC SE] the loop runs to the end of the connection. *)
Lemma sb_runs_to_end (fuel : nat) (body : list byte) (conn : Conn)
    (one : byte) :
  sb_skipped body = true ->
  rd conn = map delivered body ->
  List.length body < fuel ->
  handleIAC_sb fuel conn one = Some (set_rd conn []).
Proof.
  revert body conn one.
  induction fuel as [|fuel IH]; intros body conn one Hs Hrd Hlen; [lia|].
  destruct body as [|b body].
  - simpl in Hrd. rewrite (sb_at_end fuel conn one Hrd).
    now rewrite <- Hrd, set_rd_id.
  - simpl in Hs, Hrd, Hlen. destruct (byte_eqb b IAC) eqn:Hb.
    + apply byte_eqb_eq in Hb. subst b.
      destruct body as [|y body]; [discriminate|].
      apply andb_true_iff in Hs. destruct Hs as [Hy Hs].
      apply negb_true_iff, byte_eqb_neq in Hy. simpl in Hrd, Hlen.
      rewrite (sb_escaped_byte fuel conn one Hrd Hy).
      rewrite <- (set_rd_set_rd conn (map delivered body) []).
      apply IH with body; [exact Hs | reflexivity | lia].
    + apply byte_eqb_neq in Hb.
      rewrite (sb_plain_byte fuel conn one Hrd Hb).
      rewrite <- (set_rd_set_rd conn (map delivered body) []).
      apply IH with body; [exact Hs | reflexivity | lia].
Qed.

Lemma handleIAC_SB (conn : Conn) (rest : list ReadEv) :
  rd conn = delivered SB :: rest ->
  handleIAC conn IAC =
    match handleIAC_sb (S (List.length rest)) (set_rd conn rest) x00 with
    | Some c => (c, true)
    | None => (set_rd conn rest, true)
    end.
Proof.
  intros H. unfold handleIAC. rewrite (Read_cons _ _ H). reflexivity.
Qed.

(** X1.  A subnegotiation with a body the loop passes over and then
    [IAC SE]: the filter uses up all of it, to the byte after [SE],
    writes nothing and reports the byte handled; the matcher appends
    nothing for it.  The body may hold pairs [IAC y], also [IAC IAC];
    an [SE] that follows such a pair does not end the subnegotiation. *)
Theorem subnegotiation_is_skipped (conn : Conn) (body : list byte)
    (rest : list ReadEv) (targets : list gostring) :
  sb_skipped body = true ->
  handleIAC (pending conn (SB :: body ++ [IAC; SE]) rest) IAC
    = (set_rd conn rest, true) /\
  readUntilAny (pending conn (IAC :: SB :: body ++ [IAC; SE]) rest) targets
    = readUntilAny (set_rd conn rest) targets.
Proof.
  intros Hs.
  assert (H : handleIAC (pending conn (SB :: body ++ [IAC; SE]) rest) IAC
              = (set_rd conn rest, true)).
  { rewrite (@handleIAC_SB (pending conn (SB :: body ++ [IAC; SE]) rest)
               (map delivered (body ++ [IAC; SE]) ++ rest) eq_refl).
    rewrite (@sb_runs_to_terminator _ body
               (set_rd (pending conn (SB :: body ++ [IAC; SE]) rest)
                  (map delivered (body ++ [IAC; SE]) ++ rest))
               x00 rest Hs eq_refl).
    - reflexivity.
    - rewrite length_app, length_map, length_app. lia. }
  split; [exact H|].
  rewrite readUntilAny_pending_IAC. now rewrite H.
Qed.

Lemma subnegotiation_is_skipped_witness :
  let body := [x18; IAC; IAC; SE; x01] in
  let conn := fresh [] in
  handleIAC (pending conn (SB :: body ++ [IAC; SE])
               (map delivered (str "login:"))) IAC
    = (set_rd conn (map delivered (str "login:")), true) /\
  readUntilAny (pending conn (IAC :: SB :: body ++ [IAC; SE])
                  (map delivered (str "login:"))) [str "ogin:"]
    = readUntilAny (set_rd conn (map delivered (str "login:"))) [str "ogin:"].
Proof.
  intros body conn.
  apply (@subnegotiation_is_skipped conn body (map delivered (str "login:"))
           [str "ogin:"]).
  reflexivity.
Defined.

(** X2.  A subnegotiation that is never ended by [IAC SE] takes the
    rest of the input with it: the filter reads to the end of the
    connection, and the matcher returns the error of the end with an
    empty string, whatever prompt the swallowed bytes held. *)
Theorem unterminated_subnegotiation_eats_input (conn : Conn)
    (body : list byte) (targets : list gostring) :
  sb_skipped body = true ->
  handleIAC (pending conn (SB :: body) []) IAC = (set_rd conn [], true) /\
  readUntilAny (pending conn (IAC :: SB :: body) []) targets
    = (set_rd conn [], [], Some (readError targets (rd_end conn))).
Proof.
  intros Hs.
  assert (H : handleIAC (pending conn (SB :: body) []) IAC
              = (set_rd conn [], true)).
  { rewrite (@handleIAC_SB (pending conn (SB :: body) [])
               (map delivered body ++ []) eq_refl).
    rewrite (@sb_runs_to_end _ body
               (set_rd (pending conn (SB :: body) []) (map delivered body ++ []))
               x00 Hs).
    - reflexivity.
    - simpl. now rewrite app_nil_r.
    - rewrite length_app, length_map. simpl. lia. }
  split; [exact H|].
  rewrite readUntilAny_pending_IAC, H. reflexivity.
Qed.

Lemma unterminated_subnegotiation_eats_input_witness :
  let conn := fresh [] in
  readUntilAny (pending conn (IAC :: SB :: x18 :: str "login:") [])
    [str "ogin:"]
  = (set_rd conn [], [], Some (readError [str "ogin:"] (rd_end conn))).
Proof.
  intros conn.
  apply (@unterminated_subnegotiation_eats_input conn (x18 :: str "login:")
           [str "ogin:"]).
  reflexivity.
Defined.

(** X3.  [IAC] followed by a command byte that is none of [DO], [WILL],
    [WONT], [DONT], [SB]: the filter uses up exactly the command byte,
    writes nothing and reports the byte handled.  So [IAC IAC], the
    escape of a data byte 255, gives the matcher no byte at all. *)
Theorem other_command_takes_two_bytes (conn : Conn) (cmd : byte)
    (rest : list ReadEv) (targets : list gostring) :
  cmd <> DO -> cmd <> WILL -> cmd <> WONT -> cmd <> DONT -> cmd <> SB ->
  handleIAC (pending conn [cmd] rest) IAC = (set_rd conn rest, true) /\
  readUntilAny (pending conn [IAC; cmd] rest) targets
    = readUntilAny (set_rd conn rest) targets.
Proof.
  intros H1 H2 H3 H4 H5.
  apply byte_eqb_neq in H1, H2, H3, H4, H5.
  assert (H : handleIAC (pending conn [cmd] rest) IAC
              = (set_rd conn rest, true)).
  { unfold handleIAC.
    rewrite (@Read_cons (pending conn [cmd] rest) x00 (delivered cmd) rest
               eq_refl).
    cbn [delivered ev_byte ev_err negb byte_eqb].
    change (Byte.eqb IAC IAC) with true. cbn [negb].
    unfold byte_eqb in *. now rewrite H1, H2, H3, H4, H5. }
  split; [exact H|].
  rewrite readUntilAny_pending_IAC. now rewrite H.
Qed.

Lemma other_command_takes_two_bytes_witness :
  let conn := fresh [] in
  readUntilAny (pending conn [IAC; IAC] (map delivered (str "a"))) [str "a"]
    = readUntilAny (set_rd conn (map delivered (str "a"))) [str "a"].
Proof.
  intros conn.
  apply (@other_command_takes_two_bytes conn IAC (map delivered (str "a"))
           [str "a"]); discriminate.
Defined.

End FilterCases.

(* ================================================================== *)
(** * More on the filter: what it touches, and failing reads           *)
(* ================================================================== *)

Section FilterFootprint.
Import Go Telnet.

(** X4.  Whatever the connection brings and whatever byte it is handed,
    the filter reports handled exactly for [IAC]; it leaves the
    connection untouched for any other byte; it only uses up reads from
    the front and writes at most one payload, a refusal; the deadline,
    the closed flag and the error of the end stay as they are. *)
Theorem filter_footprint (conn : Conn) (firstByte : byte) :
  (snd (handleIAC conn firstByte) = true <-> firstByte = IAC) /\
  (firstByte <> IAC -> fst (handleIAC conn firstByte) = conn) /\
  exists w,
    advances conn (fst (handleIAC conn firstByte)) w /\
    List.length w <= 1 /\ Forall refusal w.
Proof.
  split; [|split].
  - rewrite handleIAC_handled. apply byte_eqb_eq.
  - intros Hb. now rewrite (handleIAC_data conn Hb).
  - unfold handleIAC. destruct (negb (byte_eqb firstByte IAC)).
    { exists []. repeat split; try apply advances_refl; auto. }
    destruct (Read conn x00) as [[[c1 cmd] n1] e1] eqn:HR1.
    pose proof (advances_Read _ _ HR1) as A1.
    destruct e1 as [e1|].
    { exists []. repeat split; try apply A1; auto. }
    destruct (byte_eqb cmd DO).
    { destruct (Read c1 x00) as [[[c2 opt] n2] e2] eqn:HR2.
      pose proof (advances_Read _ _ HR2) as A2.
      pose proof (advances_Write c2 [IAC; WONT; opt]) as A3.
      destruct (Write c2 [IAC; WONT; opt]) as [c3 e3]. simpl in *.
      exists [[IAC; WONT; opt]]. split; [|split].
      - exact (advances_trans (advances_trans A1 A2) A3).
      - simpl. lia.
      - repeat constructor. exists opt. now left. }
    destruct (byte_eqb cmd WILL).
    { destruct (Read c1 x00) as [[[c2 opt] n2] e2] eqn:HR2.
      pose proof (advances_Read _ _ HR2) as A2.
      pose proof (advances_Write c2 [IAC; DONT; opt]) as A3.
      destruct (Write c2 [IAC; DONT; opt]) as [c3 e3]. simpl in *.
      exists [[IAC; DONT; opt]]. split; [|split].
      - exact (advances_trans (advances_trans A1 A2) A3).
      - simpl. lia.
      - repeat constructor. exists opt. now right. }
    destruct (byte_eqb cmd WONT || byte_eqb cmd DONT).
    { destruct (Read c1 x00) as [[[c2 opt] n2] e2] eqn:HR2.
      pose proof (advances_Read _ _ HR2) as A2. simpl.
      exists []. split; [exact (advances_trans A1 A2) | split; auto]. }
    destruct (byte_eqb cmd SB).
    { destruct (handleIAC_sb_total (fuel := S (List.length (rd c1))) c1 x00)
        as [c' [H A]]; [lia|].
      rewrite H. simpl.
      exists []. split; [exact (advances_trans A1 A) | split; auto]. }
    simpl. exists []. split; [exact A1 | split; auto].
Qed.

(** The loop of the [SB] case stops at a read that fails. *)
Lemma sb_runs_to_failure (fuel : nat) (body : list byte) (conn : Conn)
    (one : byte) (e : error) (rest : list ReadEv) :
  sb_skipped body = true ->
  rd conn = map delivered body ++ failed e :: rest ->
  List.length body < fuel ->
  handleIAC_sb fuel conn one = Some (set_rd conn rest).
Proof.
  revert body conn one.
  induction fuel as [|fuel IH]; intros body conn one Hs Hrd Hlen; [lia|].
  destruct body as [|b body].
  - simpl in Hrd. cbn [handleIAC_sb]. now rewrite (Read_cons _ _ Hrd).
  - simpl in Hs, Hrd, Hlen. destruct (byte_eqb b IAC) eqn:Hb.
    + apply byte_eqb_eq in Hb. subst b.
      destruct body as [|y body]; [discriminate|].
      apply andb_true_iff in Hs. destruct Hs as [Hy Hs].
      apply negb_true_iff, byte_eqb_neq in Hy. simpl in Hrd, Hlen.
      rewrite (sb_escaped_byte fuel conn one Hrd Hy).
      rewrite <- (set_rd_set_rd conn (map delivered body ++ failed e :: rest)
                    rest).
      apply IH with body; [exact Hs | reflexivity | lia].
    + apply byte_eqb_neq in Hb.
      rewrite (sb_plain_byte fuel conn one Hrd Hb).
      rewrite <- (set_rd_set_rd conn (map delivered body ++ failed e :: rest)
                    rest).
      apply IH with body; [exact Hs | reflexivity | lia].
Qed.

(** X5.  A read that fails while the filter takes the command byte, the
    option byte of [WONT] or [DONT], or a byte of a subnegotiation ends
    the filter there: the byte is reported handled, nothing is written
    and the error is not given back. *)
Theorem filter_stops_at_failed_read (conn : Conn) (e : error)
    (body : list byte) (rest : list ReadEv) :
  sb_skipped body = true ->
  handleIAC (set_rd conn (failed e :: rest)) IAC = (set_rd conn rest, true) /\
  handleIAC (set_rd conn []) IAC = (set_rd conn [], true) /\
  handleIAC (set_rd conn (delivered WONT :: failed e :: rest)) IAC
    = (set_rd conn rest, true) /\
  handleIAC (set_rd conn (delivered DONT :: failed e :: rest)) IAC
    = (set_rd conn rest, true) /\
  handleIAC (set_rd conn (map delivered (SB :: body) ++ failed e :: rest)) IAC
    = (set_rd conn rest, true).
Proof.
  intros Hs. repeat split.
  rewrite (@handleIAC_SB
             (set_rd conn (map delivered (SB :: body) ++ failed e :: rest))
             (map delivered body ++ failed e :: rest) eq_refl).
  rewrite (@sb_runs_to_failure _ body
             (set_rd (set_rd conn (map delivered (SB :: body)
                                   ++ failed e :: rest))
                (map delivered body ++ failed e :: rest))
             x00 e rest Hs eq_refl).
  - reflexivity.
  - rewrite length_app, length_map. simpl. lia.
Qed.

Lemma filter_stops_at_failed_read_witness :
  let conn := fresh [] in
  handleIAC (set_rd conn (map delivered (SB :: str "ab")
                          ++ failed Scenario.timeout
                          :: map delivered (str "c"))) IAC
    = (set_rd conn (map delivered (str "c")), true).
Proof.
  intros conn.
  apply (@filter_stops_at_failed_read conn Scenario.timeout (str "ab")
           (map delivered (str "c")) eq_refl).
Defined.

End FilterFootprint.

(* ================================================================== *)
(** * More on the matcher                                              *)
(* ================================================================== *)

Section MatcherMore.
Import Go Telnet.

(** Only bytes other than [IAC] are appended. *)
Lemma loop_appends_no_IAC (fuel : nat) (conn : Conn) (targets : list gostring)
    (buf : gostring) (c' : Conn) (s : gostring) (r : option error) :
  readUntilAny_loop fuel conn targets buf = Some (c', s, r) ->
  exists ext, s = buf ++ ext /\ ~ In IAC ext.
Proof.
  revert conn buf. induction fuel as [|fuel IH]; intros conn buf H.
  - discriminate.
  - rewrite loop_step in H.
    destruct (Read conn x00) as [[[c1 one] n] err].
    destruct (0 <? n).
    + pose proof (handleIAC_handled c1 one) as Hh.
      destruct (handleIAC c1 one) as [c2 handled]. simpl in Hh.
      destruct handled; [now apply IH with c2|].
      symmetry in Hh. apply byte_eqb_neq in Hh.
      assert (Hone : ~ In IAC [one]).
      { intros [Heq|[]]. now apply Hh. }
      cbv zeta in H.
      destruct (firstContained (buf ++ [one]) targets).
      * injection H as <- <- <-. now exists [one].
      * destruct err.
        -- injection H as <- <- <-. now exists [one].
        -- destruct (IH _ _ H) as [ext [Hs Hno]].
           exists (one :: ext). split.
           ++ now rewrite Hs, <- app_assoc.
           ++ intros [Heq|Hin]; [now apply Hh | now apply Hno].
    + destruct err.
      * injection H as <- <- <-. exists []. split; [now rewrite app_nil_r|].
        intros [].
      * now apply IH with c1.
Qed.

(** X6.  The string [readUntilAny] returns never holds the byte 255
    ([IAC]), whatever the connection brings and whether the call ends
    in a match or in an error. *)
Theorem matcher_never_returns_IAC (conn : Conn) (targets : list gostring) :
  ~ In IAC (snd (fst (readUntilAny conn targets))).
Proof.
  pose proof (readUntilAny_total conn targets) as H.
  destruct (readUntilAny conn targets) as [[c' s] r].
  destruct (loop_appends_no_IAC _ _ _ _ H) as [ext [Hs Hno]].
  simpl in *. now subst s.
Qed.

(** X7.  With an empty list of targets [readUntilAny] never returns a
    match: it reads until a read fails and returns that error, wrapped,
    with everything it has appended. *)
Theorem no_targets_never_match (conn : Conn) :
  exists c' s e, readUntilAny conn [] = (c', s, Some (readError [] e)).
Proof.
  pose proof (readUntilAny_total conn []) as H.
  destruct (readUntilAny conn []) as [[c' s] r].
  destruct (loop_sound _ _ _ _ H) as [ext [_ [_ [Hr _]]]].
  destruct r as [err|].
  - destruct Hr as [_ [e ->]]. now exists c', s, e.
  - destruct Hr as [_ Hc]. now elim Hc.
Qed.

(** X8.  A target that is the empty string is in every buffer, but the
    buffer is scanned only after an append: the call returns at the
    first data byte, with that one byte and no error, even when the
    read of the byte came with an error. *)
Theorem empty_target_matches_first_byte (conn : Conn)
    (targets : list gostring) (ev : ReadEv) (b : byte) (rest : list ReadEv) :
  In [] targets ->
  ev_byte ev = Some b ->
  b <> IAC ->
  readUntilAny (set_rd conn (ev :: rest)) targets
    = (set_rd conn rest, [b], None).
Proof.
  intros Hin Hev Hb.
  pose proof (readUntilAny_total (set_rd conn (ev :: rest)) targets) as H.
  rewrite (@loop_data_byte _ (set_rd conn (ev :: rest)) targets [] ev rest b
             eq_refl Hev Hb) in H.
  assert (Hc : firstContained ([] ++ [b]) targets <> None).
  { apply firstContained_exists. exists []. split; [exact Hin|].
    apply Contains_nil. }
  destruct (firstContained ([] ++ [b]) targets); [|congruence].
  now injection H.
Qed.

Lemma empty_target_matches_first_byte_witness :
  let conn := fresh [] in
  readUntilAny
    (set_rd conn (delivered_failing "x" Scenario.timeout
                  :: map delivered (str "login:")))
    [str "ogin:"; []]
  = (set_rd conn (map delivered (str "login:")), str "x", None).
Proof.
  intros conn.
  apply (@empty_target_matches_first_byte conn [str "ogin:"; []]
           (delivered_failing "x" Scenario.timeout) "x"%byte
           (map delivered (str "login:"))).
  - right. now left.
  - reflexivity.
  - discriminate.
Defined.

(** Two lists of targets that no scan tells apart make the loop run in
    step. *)
Lemma loop_same_scan (T T' : list gostring) :
  (forall s, firstContained s T = None <-> firstContained s T' = None) ->
  forall fuel conn buf,
    match readUntilAny_loop fuel conn T buf,
          readUntilAny_loop fuel conn T' buf with
    | None, None => True
    | Some (c, s, r), Some (c', s', r') =>
      c = c' /\ s = s' /\
      match r, r' with
      | None, None => True
      | Some err, Some err' =>
        exists e, err = readError T e /\ err' = readError T' e
      | _, _ => False
      end
    | _, _ => False
    end.
Proof.
  intros Hscan. induction fuel as [|fuel IH]; intros conn buf.
  - exact I.
  - rewrite !loop_step.
    destruct (Read conn x00) as [[[c1 one] n] err].
    destruct (0 <? n).
    + destruct (handleIAC c1 one) as [c2 handled].
      destruct handled; [apply IH|].
      cbv zeta. specialize (Hscan (buf ++ [one])).
      destruct (firstContained (buf ++ [one]) T) as [t|] eqn:E;
        destruct (firstContained (buf ++ [one]) T') as [t'|] eqn:E'.
      * now repeat split.
      * destruct Hscan as [_ Hs]. specialize (Hs eq_refl). discriminate.
      * destruct Hscan as [Hs _]. specialize (Hs eq_refl). discriminate.
      * destruct err as [e|]; [|apply IH].
        repeat split. now exists e.
    + destruct err as [e|]; [|apply IH].
      repeat split. now exists e.
Qed.

(** X9.  The order of the targets, and how often each is listed, does
    not change what the call returns: for two lists with the same
    members the connection left and the string are the same, and both
    calls end in a match or both end with the same read error (wrapped
    with the one and the other list in the message). *)
Theorem target_order_is_irrelevant (conn : Conn) (T T' : list gostring) :
  (forall t, In t T <-> In t T') ->
  fst (readUntilAny conn T) = fst (readUntilAny conn T') /\
  match snd (readUntilAny conn T), snd (readUntilAny conn T') with
  | None, None => True
  | Some err, Some err' =>
    exists e, err = readError T e /\ err' = readError T' e
  | _, _ => False
  end.
Proof.
  intros Hsame.
  assert (Hscan : forall s,
            firstContained s T = None <-> firstContained s T' = None).
  { intros s. rewrite !firstContained_None. split; intros H t Ht;
      apply H, Hsame, Ht. }
  pose proof (@loop_same_scan T T' Hscan (S (List.length (rd conn))) conn [])
    as H.
  rewrite !readUntilAny_total in H.
  destruct (readUntilAny conn T) as [[c s] r].
  destruct (readUntilAny conn T') as [[c' s'] r'].
  destruct H as [-> [-> Hr]]. split; [reflexivity | exact Hr].
Qed.

Lemma target_order_is_irrelevant_witness :
  let conn := fresh (map delivered (str "ok # ")) in
  fst (readUntilAny conn [str "$ "; str "# "])
    = fst (readUntilAny conn [str "# "; str "$ "; str "# "]).
Proof.
  intros conn.
  apply (@target_order_is_irrelevant conn [str "$ "; str "# "]
           [str "# "; str "$ "; str "# "]).
  intros t. simpl. tauto.
Defined.

(** X10.  Whatever the connection brings, [readUntilAny] only uses up
    reads from the front and writes refusals; the deadline, the closed
    flag and the error of the end stay as they are. *)
Theorem matcher_footprint (conn : Conn) (targets : list gostring) :
  exists w,
    advances conn (fst (fst (readUntilAny conn targets))) w /\
    Forall refusal w.
Proof.
  pose proof (readUntilAny_total conn targets) as H.
  destruct (readUntilAny conn targets) as [[c' s] r].
  destruct (loop_sound _ _ _ _ H) as [_ [_ [_ [_ Hw]]]].
  exact Hw.
Qed.

(** X11.  The loop of [readUntilAny] returns within [length (rd conn) +
    1] iterations from any buffer content, and what it returns does not
    change when more iterations are allowed. *)
Theorem matcher_loop_returns (fuel : nat) (conn : Conn)
    (targets : list gostring) (buf : gostring) :
  List.length (rd conn) < fuel ->
  exists r,
    readUntilAny_loop fuel conn targets buf = Some r /\
    forall fuel', fuel <= fuel' ->
                  readUntilAny_loop fuel' conn targets buf = Some r.
Proof.
  intros Hlen. destruct (loop_total conn targets buf Hlen) as [r Hr].
  exists r. split; [exact Hr|].
  intros fuel' Hle. now apply loop_fuel_le with fuel.
Qed.

Lemma matcher_loop_returns_witness :
  exists r,
    readUntilAny_loop 4 (fresh (map delivered (str "abc"))) [str "z"] []
      = Some r /\
    forall fuel', 4 <= fuel' ->
      readUntilAny_loop fuel' (fresh (map delivered (str "abc"))) [str "z"] []
        = Some r.
Proof.
  apply (@matcher_loop_returns 4 (fresh (map delivered (str "abc")))
           [str "z"] []).
  simpl. lia.
Defined.

Lemma readUntilAny_IAC_event (conn : Conn) (ev : ReadEv) (rest : list ReadEv)
    (targets : list gostring) :
  ev_byte ev = Some IAC ->
  readUntilAny (set_rd conn (ev :: rest)) targets
    = readUntilAny (fst (handleIAC (set_rd conn rest) IAC)) targets.
Proof.
  intros Hev.
  assert (H : Some (readUntilAny (set_rd conn (ev :: rest)) targets) =
              Some (readUntilAny (fst (handleIAC (set_rd conn rest) IAC))
                      targets)).
  { rewrite <- readUntilAny_total.
    rewrite (@loop_IAC _ (set_rd conn (ev :: rest)) targets [] ev rest
               eq_refl Hev).
    apply readUntilAny_fuel.
    destruct (handleIAC_advances (set_rd conn rest) IAC) as [w [A _]].
    apply advances_length in A. simpl in *. lia. }
  now injection H.
Qed.

(** X12.  Errors the matcher never reports.  A read that fails right
    after an [IAC] is taken by the filter; the call goes on with the
    reads that follow, as if the two had not been there.  And the error
    of a read that gives the byte [IAC] together with an error is
    dropped: the filter handles the byte and the loop goes on. *)
Theorem error_inside_sequence_is_swallowed (conn : Conn) (e : error)
    (rest : list ReadEv) (targets : list gostring) :
  readUntilAny (set_rd conn (delivered IAC :: failed e :: rest)) targets
    = readUntilAny (set_rd conn rest) targets /\
  readUntilAny (set_rd conn (delivered_failing IAC e :: rest)) targets
    = readUntilAny (set_rd conn (delivered IAC :: rest)) targets.
Proof.
  split.
  - now rewrite (@readUntilAny_IAC_event conn (delivered IAC)
                   (failed e :: rest) targets eq_refl).
  - now rewrite (@readUntilAny_IAC_event conn (delivered_failing IAC e) rest
                   targets eq_refl),
                (@readUntilAny_IAC_event conn (delivered IAC) rest
                   targets eq_refl).
Qed.

End MatcherMore.

(* ================================================================== *)
(** * More on the option-aware probe                                   *)
(* ================================================================== *)

Section TelnetProbeMore.
Import Go Telnet.

Lemma lines_sent_app (w1 w2 : list gostring) :
  lines_sent (w1 ++ w2) = lines_sent w1 ++ lines_sent w2.
Proof. apply filter_app. Qed.

Lemma lines_sent_refusals (w : list gostring) :
  Forall refusal w -> lines_sent w = [].
Proof.
  induction 1 as [|p w Hp _ IH]; [reflexivity|].
  unfold lines_sent in *. simpl. rewrite IH.
  destruct Hp as [x [-> | ->]]; reflexivity.
Qed.

(** A line sent ends in CR LF and is no refusal. *)
Lemma line_is_no_refusal (line : gostring) :
  is_refusal (line ++ [x0d; x0a]) = false.
Proof.
  destruct line as [|a [|b [|c line]]]; try reflexivity.
  - simpl. now rewrite andb_false_r.
  - simpl. now destruct line.
Qed.

Lemma trace_wait (k0 k k' : Conn) (w L : list gostring)
    (targets : list gostring) (s : gostring) (r : option error) :
  advances k0 k w -> lines_sent w = L ->
  readUntilAny k targets = (k', s, r) ->
  exists w', advances k0 k' w' /\ lines_sent w' = L.
Proof.
  intros A HL H. pose proof (readUntilAny_total k targets) as Ht.
  rewrite H in Ht.
  destruct (loop_sound _ _ _ _ Ht) as [_ [_ [_ [_ [w2 [A2 F2]]]]]].
  exists (w ++ w2). split; [exact (advances_trans A A2)|].
  now rewrite lines_sent_app, (lines_sent_refusals F2), app_nil_r.
Qed.

Lemma trace_send (k0 k k' : Conn) (w L : list gostring) (line : gostring)
    (r : option error) :
  advances k0 k w -> lines_sent w = L ->
  sendLine k line = (k', r) ->
  exists w', advances k0 k' w' /\ lines_sent w' = L ++ [line ++ [x0d; x0a]].
Proof.
  intros A HL H. unfold sendLine in H.
  pose proof (advances_Write k (line ++ [x0d; x0a])) as A2.
  rewrite H in A2. simpl in A2.
  exists (w ++ [line ++ [x0d; x0a]]). split; [exact (advances_trans A A2)|].
  rewrite lines_sent_app, HL. unfold lines_sent. simpl.
  now rewrite line_is_no_refusal.
Qed.

(** The lines of an exchange, in order. *)
Lemma exchange_trace (conf : Schema) (d : Z) (conn c' : Conn)
    (err : option error) :
  exchange conf d conn = (err, c') ->
  exists w k,
    advances (SetDeadline conn d) c' w /\
    lines_sent w = firstn k [Username conf ++ [x0d; x0a];
                             Username conf ++ [x0d; x0a];
                             Command conf ++ [x0d; x0a]] /\
    (err = None -> k = 3).
Proof.
  unfold exchange. cbv zeta.
  set (k0 := SetDeadline conn d).
  assert (A0 : advances k0 k0 []) by apply advances_refl.
  assert (L0 : lines_sent [] = []) by reflexivity.
  destruct (readUntilAny k0 [str "ogin:"]) as [[k1 s1] e1] eqn:E1.
  destruct (@trace_wait _ _ _ _ _ _ _ _ A0 L0 E1) as [w1 [A1 L1]].
  destruct e1.
  { intros H. injection H as <- <-. exists w1, 0.
    split; [assumption | split; [assumption | discriminate]]. }
  destruct (sendLine k1 (Username conf)) as [k2 e2] eqn:E2.
  destruct (@trace_send _ _ _ _ _ _ _ A1 L1 E2) as [w2 [A2 L2]].
  destruct e2.
  { intros H. injection H as <- <-. exists w2, 1.
    split; [assumption | split; [assumption | discriminate]]. }
  destruct (readUntilAny k2 [str "assword:"]) as [[k3 s3] e3] eqn:E3.
  destruct (@trace_wait _ _ _ _ _ _ _ _ A2 L2 E3) as [w3 [A3 L3]].
  destruct e3.
  { intros H. injection H as <- <-. exists w3, 1.
    split; [assumption | split; [assumption | discriminate]]. }
  destruct (sendLine k3 (Username conf)) as [k4 e4] eqn:E4.
  destruct (@trace_send _ _ _ _ _ _ _ A3 L3 E4) as [w4 [A4 L4]].
  destruct e4.
  { intros H. injection H as <- <-. exists w4, 2.
    split; [assumption | split; [assumption | discriminate]]. }
  destruct (readUntilAny k4 shellPrompts) as [[k5 s5] e5] eqn:E5.
  destruct (@trace_wait _ _ _ _ _ _ _ _ A4 L4 E5) as [w5 [A5 L5]].
  destruct e5.
  { intros H. injection H as <- <-. exists w5, 2.
    split; [assumption | split; [assumption | discriminate]]. }
  destruct (sendLine k5 (Command conf)) as [k6 e6] eqn:E6.
  destruct (@trace_send _ _ _ _ _ _ _ A5 L5 E6) as [w6 [A6 L6]].
  destruct e6.
  { intros H. injection H as <- <-. exists w6, 3.
    split; [assumption | split; [assumption | discriminate]]. }
  destruct (readUntilAny k6 shellPrompts) as [[k7 s7] e7] eqn:E7.
  destruct (@trace_wait _ _ _ _ _ _ _ _ A6 L6 E7) as [w7 [A7 L7]].
  destruct e7.
  { intros H. injection H as <- <-. exists w7, 3.
    split; [assumption | split; [assumption | discriminate]]. }
  destruct (negb (Contains s7 (ExpectedOutput conf)));
    intros H; injection H as <- <-; exists w7, 3;
    (split; [assumption | split; [assumption | auto]]).
Qed.

(** X13.  Once the dial has succeeded, what [Run] leaves behind: the
    payloads it has written that are not refusals are the first [k] of
    user name line, user name line, command line, in this order, all
    three when [Run] returns no error; the connection is closed and
    carries the deadline of the context; and reads were only used up
    from the front. *)
Theorem telnet_lines_in_order
    (Unmarshal : gostring -> Schema + error) (dial : gostring -> Conn + error)
    (ctx : Context) (config : gostring) (conf : Schema) (d : Z) (c0 : Conn) :
  Unmarshal config = inl conf ->
  ctx_deadline ctx = Some d ->
  dial (Server conf ++ str ":" ++ Itoa (Port conf)) = inl c0 ->
  exists err cfin w k,
    Run Unmarshal dial ctx config
      = (err, Connected (Server conf ++ str ":" ++ Itoa (Port conf)) cfin) /\
    wlog cfin = wlog c0 ++ w /\
    lines_sent w = firstn k [Username conf ++ [x0d; x0a];
                             Username conf ++ [x0d; x0a];
                             Command conf ++ [x0d; x0a]] /\
    (err = None -> k = 3) /\
    closed cfin = true /\ deadline cfin = Some d /\
    exists used, rd c0 = used ++ rd cfin.
Proof.
  intros HU Hd Hdial. unfold Run. rewrite HU, Hd. cbv zeta. rewrite Hdial.
  destruct (exchange conf d c0) as [err c'] eqn:HX.
  destruct (exchange_trace _ _ _ HX) as [w [k [A [HL Hk]]]].
  exists err, (Close c'), w, k.
  destruct A as [Ard _ _ Awl Adl _]. simpl in *.
  repeat split; auto.
Qed.

Lemma telnet_lines_in_order_witness :
  exists err cfin w k,
    Run Scenario.telnet_Unmarshal Scenario.telnet_dial Scenario.ctx []
      = (err, Connected (str "host:23") cfin) /\
    wlog cfin = wlog Scenario.telnet_peer ++ w /\
    lines_sent w = firstn k [str "alice" ++ [x0d; x0a];
                             str "alice" ++ [x0d; x0a];
                             str "whoami" ++ [x0d; x0a]] /\
    (err = None -> k = 3) /\
    closed cfin = true /\ deadline cfin = Some 30%Z /\
    exists used, rd Scenario.telnet_peer = used ++ rd cfin.
Proof.
  exact (@telnet_lines_in_order
           Scenario.telnet_Unmarshal Scenario.telnet_dial Scenario.ctx []
           Scenario.telnet_conf 30%Z Scenario.telnet_peer
           eq_refl eq_refl eq_refl).
Defined.

End TelnetProbeMore.

(* ================================================================== *)
(** * How the probes report failure                                    *)
(* ================================================================== *)

Section Failures.
Import Go.

(** X14.  A dial that fails: both [Run] return at once, no connection
    exists and nothing is read or written.  The option-aware variant
    wraps the error of the dial and names the address; the plain-line
    variant returns the fixed text "tcp dial failed" and drops the
    error of the dial.  Neither looks at the rest of the configuration:
    the address is built from whatever server and port were decoded. *)
Theorem dial_failure_is_reported :
  (forall (Unmarshal : gostring -> Telnet.Schema + error)
          (dial : gostring -> Telnet.Conn + error)
          (ctx : Context) (config : gostring) (conf : Telnet.Schema)
          (d : Z) (e : error),
     Unmarshal config = inl conf ->
     ctx_deadline ctx = Some d ->
     dial (Telnet.Server conf ++ str ":" ++ Itoa (Telnet.Port conf))
       = inr e ->
     exists err,
       Telnet.Run Unmarshal dial ctx config
         = (Some err,
            Telnet.DialFailed
              (Telnet.Server conf ++ str ":" ++ Itoa (Telnet.Port conf))) /\
       Unwrap err = Some e /\
       Error err = str "failed to dial " ++ Telnet.Server conf ++ str ":"
                   ++ Itoa (Telnet.Port conf) ++ str ": " ++ Error e)
  /\
  (forall (Unmarshal : gostring -> PlainLine.Schema + error)
          (dial : gostring -> PlainLine.Conn + error)
          (ctx : Context) (config : gostring) (conf : PlainLine.Schema)
          (d : Z) (e : error),
     Unmarshal config = inl conf ->
     ctx_deadline ctx = Some d ->
     dial (JoinHostPort (PlainLine.Server conf) (Itoa (PlainLine.Port conf)))
       = inr e ->
     PlainLine.Run Unmarshal dial ctx config
       = (Some (Errorf (str "tcp dial failed")),
          PlainLine.DialFailed
            (JoinHostPort (PlainLine.Server conf)
               (Itoa (PlainLine.Port conf))))).
Proof.
  split.
  - intros Unmarshal dial ctx config conf d e HU Hd Hdial.
    unfold Telnet.Run. rewrite HU, Hd. cbv zeta. rewrite Hdial.
    eexists. split; [reflexivity|]. split; [reflexivity|].
    simpl. now rewrite <- !app_assoc.
  - intros Unmarshal dial ctx config conf d e HU Hd Hdial.
    unfold PlainLine.Run. rewrite HU, Hd. cbv zeta. now rewrite Hdial.
Qed.

Lemma dial_failure_is_reported_witness :
  let refused := ErrNew (str "connection refused") in
  (exists err,
     Telnet.Run Scenario.telnet_Unmarshal (fun _ => inr refused)
       Scenario.ctx []
     = (Some err, Telnet.DialFailed (str "host:23")) /\
     Unwrap err = Some refused /\
     Error err = str "failed to dial host:23: connection refused") /\
  PlainLine.Run Scenario.plain_Unmarshal (fun _ => inr refused) Scenario.ctx []
  = (Some (Errorf (str "tcp dial failed")),
     PlainLine.DialFailed (str "host:23")).
Proof.
  intros refused. split.
  - exact (proj1 dial_failure_is_reported
             Scenario.telnet_Unmarshal (fun _ => inr refused) Scenario.ctx []
             Scenario.telnet_conf 30%Z refused eq_refl eq_refl eq_refl).
  - exact (proj2 dial_failure_is_reported
             Scenario.plain_Unmarshal (fun _ => inr refused) Scenario.ctx []
             Scenario.plain_conf 30%Z refused eq_refl eq_refl eq_refl).
Defined.

(** Every error of the exchange of the option-aware variant is made by
    [fmt.Errorf] without [%w], with a message that starts with
    "failed". *)
Lemma telnet_exchange_errors (conf : Telnet.Schema) (d : Z)
    (conn c' : Telnet.Conn) (err : error) :
  Telnet.exchange conf d conn = (Some err, c') ->
  exists msg, err = Errorf (str "failed" ++ msg).
Proof.
  unfold Telnet.exchange. cbv zeta.
  destruct (Telnet.readUntilAny (Telnet.SetDeadline conn d) [str "ogin:"])
    as [[k1 s1] e1].
  destruct e1; [intros H; injection H as <- _; eexists; reflexivity|].
  destruct (Telnet.sendLine k1 (Telnet.Username conf)) as [k2 e2].
  destruct e2; [intros H; injection H as <- _; eexists; reflexivity|].
  destruct (Telnet.readUntilAny k2 [str "assword:"]) as [[k3 s3] e3].
  destruct e3; [intros H; injection H as <- _; eexists; reflexivity|].
  destruct (Telnet.sendLine k3 (Telnet.Username conf)) as [k4 e4].
  destruct e4; [intros H; injection H as <- _; eexists; reflexivity|].
  destruct (Telnet.readUntilAny k4 Telnet.shellPrompts) as [[k5 s5] e5].
  destruct e5; [intros H; injection H as <- _; eexists; reflexivity|].
  destruct (Telnet.sendLine k5 (Telnet.Command conf)) as [k6 e6].
  destruct e6; [intros H; injection H as <- _; eexists; reflexivity|].
  destruct (Telnet.readUntilAny k6 Telnet.shellPrompts) as [[k7 s7] e7].
  destruct e7; [intros H; injection H as <- _; eexists; reflexivity|].
  destruct (negb (Contains s7 (Telnet.ExpectedOutput conf)));
    intros H; [injection H as <- _; eexists; reflexivity | discriminate].
Qed.

(** X15.  The errors of the option-aware [Run] after a dial that
    succeeded do not wrap their cause: whatever read or write failed,
    [errors.Unwrap] of the returned error gives nothing, and the message
    starts with "failed". *)
Theorem telnet_stage_errors_do_not_wrap
    (Unmarshal : gostring -> Telnet.Schema + error)
    (dial : gostring -> Telnet.Conn + error)
    (ctx : Context) (config : gostring) (err : error) (address : gostring)
    (cfin : Telnet.Conn) :
  Telnet.Run Unmarshal dial ctx config
    = (Some err, Telnet.Connected address cfin) ->
  Unwrap err = None /\ HasPrefix (Error err) (str "failed") = true.
Proof.
  unfold Telnet.Run. destruct (Unmarshal config) as [conf|e]; [|discriminate].
  destruct (ctx_deadline ctx) as [d|]; [|discriminate].
  cbv zeta.
  destruct (dial (Telnet.Server conf ++ str ":" ++ Itoa (Telnet.Port conf)))
    as [c0|e]; [|discriminate].
  destruct (Telnet.exchange conf d c0) as [r c'] eqn:HX.
  intros H. injection H as -> _ _.
  destruct (telnet_exchange_errors _ _ _ HX) as [msg ->].
  split; reflexivity.
Qed.

Lemma telnet_stage_errors_do_not_wrap_witness :
  let peer := Telnet.fresh (map Telnet.delivered (str "login: ")
                            ++ [Telnet.failed Scenario.timeout]) in
  let err := Errorf (str "failed waiting for password prompt: read error waiting for [assword:]: i/o timeout") in
  Unwrap err = None /\ HasPrefix (Error err) (str "failed") = true.
Proof.
  intros peer err.
  eapply (@telnet_stage_errors_do_not_wrap
            Scenario.telnet_Unmarshal (fun _ => inl peer) Scenario.ctx []
            err (str "host:23")).
  vm_compute. reflexivity.
Defined.

(** With nothing expected the comparison of the option-aware variant
    cannot fail. *)
Lemma telnet_exchange_empty_expected (conf : Telnet.Schema) (d : Z)
    (conn c' : Telnet.Conn) (err : error) (s : gostring) :
  Telnet.ExpectedOutput conf = [] ->
  Telnet.exchange conf d conn = (Some err, c') ->
  err <> Errorf (str "failed: outputs do not match; got: " ++ s).
Proof.
  intros HE. unfold Telnet.exchange. cbv zeta.
  destruct (Telnet.readUntilAny (Telnet.SetDeadline conn d) [str "ogin:"])
    as [[k1 s1] e1].
  destruct e1; [intros H; injection H as <- _; discriminate|].
  destruct (Telnet.sendLine k1 (Telnet.Username conf)) as [k2 e2].
  destruct e2; [intros H; injection H as <- _; discriminate|].
  destruct (Telnet.readUntilAny k2 [str "assword:"]) as [[k3 s3] e3].
  destruct e3; [intros H; injection H as <- _; discriminate|].
  destruct (Telnet.sendLine k3 (Telnet.Username conf)) as [k4 e4].
  destruct e4; [intros H; injection H as <- _; discriminate|].
  destruct (Telnet.readUntilAny k4 Telnet.shellPrompts) as [[k5 s5] e5].
  destruct e5; [intros H; injection H as <- _; discriminate|].
  destruct (Telnet.sendLine k5 (Telnet.Command conf)) as [k6 e6].
  destruct e6; [intros H; injection H as <- _; discriminate|].
  destruct (Telnet.readUntilAny k6 Telnet.shellPrompts) as [[k7 s7] e7].
  destruct e7; [intros H; injection H as <- _; discriminate|].
  rewrite HE, Contains_nil. discriminate.
Qed.

(** X16.  With an empty expected output the option-aware [Run] never
    returns the error of a mismatch: every string contains the empty
    string, so the comparison passes whatever the command printed, and
    [Run] fails only when the dial, a wait or a send fails. *)
Theorem telnet_empty_expected_never_mismatches
    (Unmarshal : gostring -> Telnet.Schema + error)
    (dial : gostring -> Telnet.Conn + error)
    (ctx : Context) (config : gostring) (conf : Telnet.Schema)
    (s : gostring) :
  Unmarshal config = inl conf ->
  Telnet.ExpectedOutput conf = [] ->
  fst (Telnet.Run Unmarshal dial ctx config)
    <> Some (Errorf (str "failed: outputs do not match; got: " ++ s)).
Proof.
  intros HU HE. unfold Telnet.Run. rewrite HU.
  destruct (ctx_deadline ctx) as [d|]; [|discriminate].
  cbv zeta.
  destruct (dial (Telnet.Server conf ++ str ":" ++ Itoa (Telnet.Port conf)))
    as [c0|e]; [|discriminate].
  destruct (Telnet.exchange conf d c0) as [r c'] eqn:HX. simpl.
  destruct r as [err|]; [|discriminate].
  intros H. injection H as H.
  exact (@telnet_exchange_empty_expected conf d c0 c' err s HE HX H).
Qed.

Lemma telnet_empty_expected_never_mismatches_witness :
  let conf := {| Telnet.Server := str "host"; Telnet.Port := 23%Z;
                 Telnet.Username := str "alice";
                 Telnet.Password := str "secret";
                 Telnet.Command := str "whoami";
                 Telnet.ExpectedOutput := [] |} in
  fst (Telnet.Run (fun _ => inl conf) Scenario.telnet_dial Scenario.ctx [])
    <> Some (Errorf (str "failed: outputs do not match; got: "
                     ++ Scenario.alice_output)).
Proof.
  intros conf.
  apply (@telnet_empty_expected_never_mismatches
           (fun _ => inl conf) Scenario.telnet_dial Scenario.ctx [] conf
           Scenario.alice_output eq_refl eq_refl).
Defined.

End Failures.

(* ================================================================== *)
(** * More on the plain-line probe                                     *)
(* ================================================================== *)

Section PlainLineMore.
Import Go PlainLine.

Lemma ReadString_from_line (l : gostring) (rest : list Item)
    (end_err : error) (delim : byte) (acc : gostring) :
  ~ In delim l ->
  ReadString_from (map Data (l ++ [delim]) ++ rest) end_err delim acc
    = (rest, acc ++ l ++ [delim], None).
Proof.
  revert acc. induction l as [|b l IH]; intros acc Hno; simpl.
  - now rewrite byte_eqb_refl.
  - assert (Hb : byte_eqb b delim = false).
    { apply byte_eqb_neq. intros ->. apply Hno. now left. }
    rewrite Hb, IH.
    + now rewrite <- app_assoc.
    + intros Hin. apply Hno. now right.
Qed.

Lemma ReadString_from_fragment (l : gostring) (e : error) (rest : list Item)
    (end_err : error) (delim : byte) (acc : gostring) :
  ~ In delim l ->
  ReadString_from (map Data l ++ Fail e :: rest) end_err delim acc
    = (rest, acc ++ l, Some e) /\
  ReadString_from (map Data l) end_err delim acc
    = ([], acc ++ l, Some end_err).
Proof.
  revert acc. induction l as [|b l IH]; intros acc Hno; simpl.
  - now rewrite app_nil_r.
  - assert (Hb : byte_eqb b delim = false).
    { apply byte_eqb_neq. intros ->. apply Hno. now left. }
    rewrite Hb.
    destruct (IH (acc ++ [b])) as [H1 H2].
    { intros Hin. apply Hno. now right. }
    rewrite H1, H2, <- app_assoc. now split.
Qed.

Lemma ReadString_line (conn : Conn) (l : gostring) (rest : list Item) :
  rd conn = map Data (l ++ [newline]) ++ rest ->
  ~ In newline l ->
  ReadString conn newline = (set_rd conn rest, l ++ [newline], None).
Proof.
  intros Hrd Hno. unfold ReadString.
  now rewrite Hrd, (@ReadString_from_line l rest (rd_end conn) newline []
                      Hno).
Qed.

Lemma line_items_cons (l : gostring) (lines : list gostring) :
  line_items (l :: lines) = map Data (l ++ [newline]) ++ line_items lines.
Proof. unfold line_items. simpl. now rewrite map_app. Qed.

(** X17.  The prompt loops work on whole lines: when the bytes that
    arrive hold no line feed before a read fails, the loop never sees a
    line, whatever the bytes are and even if they hold the prompt;
    [Run] returns the error "context deadline is not set", the error of
    the read is dropped and nothing is written.  The same at the end of
    the connection. *)
Theorem prompt_without_newline_is_missed
    (Unmarshal : gostring -> Schema + error) (dial : gostring -> Conn + error)
    (ctx : Context) (config : gostring) (conf : Schema) (d : Z) (c0 : Conn)
    (bytes : gostring) :
  Unmarshal config = inl conf ->
  ctx_deadline ctx = Some d ->
  dial (JoinHostPort (Server conf) (Itoa (Port conf))) = inl c0 ->
  ~ In newline bytes ->
  (forall e rest,
     rd c0 = map Data bytes ++ Fail e :: rest ->
     Run Unmarshal dial ctx config
       = (Some (Errorf (str "context deadline is not set")),
          Connected (JoinHostPort (Server conf) (Itoa (Port conf)))
            (Close (set_rd c0 rest)))) /\
  (rd c0 = map Data bytes ->
   Run Unmarshal dial ctx config
     = (Some (Errorf (str "context deadline is not set")),
        Connected (JoinHostPort (Server conf) (Itoa (Port conf)))
          (Close (set_rd c0 [])))).
Proof.
  intros HU Hd Hdial Hno.
  assert (Hloop : forall rest line e,
            ReadString c0 newline = (set_rd c0 rest, line, Some e) ->
            Run Unmarshal dial ctx config
              = (Some (Errorf (str "context deadline is not set")),
                 Connected (JoinHostPort (Server conf) (Itoa (Port conf)))
                   (Close (set_rd c0 rest)))).
  { intros rest line e HR.
    unfold Run. rewrite HU, Hd. cbv zeta. rewrite Hdial.
    unfold exchange, waitPrompt. rewrite promptLoop_step, HR. reflexivity. }
  split.
  - intros e rest Hrd. apply Hloop with bytes e.
    unfold ReadString. rewrite Hrd.
    now rewrite (proj1 (@ReadString_from_fragment bytes e rest (rd_end c0)
                          newline [] Hno)).
  - intros Hrd. apply Hloop with bytes (rd_end c0).
    unfold ReadString. rewrite Hrd.
    now rewrite (proj2 (@ReadString_from_fragment bytes (rd_end c0) []
                          (rd_end c0) newline [] Hno)).
Qed.

Lemma prompt_without_newline_is_missed_witness :
  let peer := {| rd := map Data (str "login: ") ++ [Fail Scenario.timeout];
                 rd_end := ErrNew (str "EOF"); wlog := [];
                 closed := false |} in
  Run Scenario.plain_Unmarshal (fun _ => inl peer) Scenario.ctx []
    = (Some (Errorf (str "context deadline is not set")),
       Connected (str "host:23") (Close (set_rd peer []))).
Proof.
  intros peer.
  apply (proj1 (@prompt_without_newline_is_missed
                  Scenario.plain_Unmarshal (fun _ => inl peer) Scenario.ctx []
                  Scenario.plain_conf 30%Z peer (str "login: ")
                  eq_refl eq_refl eq_refl
                  ltac:(simpl; intros [H|[H|[H|[H|[H|[H|[H|[]]]]]]]];
                        discriminate))
           Scenario.timeout []).
  reflexivity.
Defined.

(** A prompt loop passes over the lines that do not hold the prompt. *)
Lemma promptLoop_lines (banner : list gostring) (L : gostring) (fuel : nat)
    (conn : Conn) (prompt answer : gostring) (rest : list Item) :
  Forall (fun l => ~ In newline l /\ Contains (l ++ [newline]) prompt = false)
    banner ->
  ~ In newline L ->
  Contains (L ++ [newline]) prompt = true ->
  rd conn = line_items (banner ++ [L]) ++ rest ->
  List.length banner < fuel ->
  promptLoop fuel conn prompt answer
    = Some (Fprintf (set_rd conn rest) (answer ++ [newline]), None).
Proof.
  intros Hb HL Hc. revert fuel conn.
  induction Hb as [|l banner [Hl Hlc] _ IH]; intros fuel conn Hrd Hlen.
  - destruct fuel as [|fuel]; [simpl in Hlen; lia|].
    change ([] ++ [L]) with [L] in Hrd. rewrite line_items_cons in Hrd.
    unfold line_items in Hrd. simpl in Hrd. rewrite app_nil_r in Hrd.
    rewrite promptLoop_step, (@ReadString_line conn L rest Hrd HL), Hc.
    reflexivity.
  - destruct fuel as [|fuel]; [simpl in Hlen; lia|].
    change ((l :: banner) ++ [L]) with (l :: (banner ++ [L])) in Hrd.
    rewrite line_items_cons, <- app_assoc in Hrd.
    rewrite promptLoop_step, (@ReadString_line conn l _ Hrd Hl), Hlc.
    rewrite (IH fuel (set_rd conn (line_items (banner ++ [L]) ++ rest))).
    + reflexivity.
    + reflexivity.
    + simpl in Hlen. lia.
Qed.

Lemma line_items_length (lines : list gostring) :
  List.length lines <= List.length (line_items lines).
Proof.
  induction lines as [|l lines IH]; [simpl; lia|].
  rewrite line_items_cons, length_app, length_map, length_app. simpl. lia.
Qed.

(** X18.  A prompt loop reads line by line: it passes over every line
    that does not hold the prompt, and at the first line that holds it
    it writes the answer and a line feed, once, and leaves the lines
    after it unread. *)
Theorem prompt_loop_skips_other_lines (conn : Conn) (banner : list gostring)
    (L prompt answer : gostring) (rest : list Item) :
  Forall (fun l => ~ In newline l /\ Contains (l ++ [newline]) prompt = false)
    banner ->
  ~ In newline L ->
  Contains (L ++ [newline]) prompt = true ->
  rd conn = line_items (banner ++ [L]) ++ rest ->
  waitPrompt conn prompt answer
    = (Fprintf (set_rd conn rest) (answer ++ [newline]), None).
Proof.
  intros Hb HL Hc Hrd. unfold waitPrompt.
  rewrite (@promptLoop_lines banner L (S (List.length (rd conn))) conn prompt
             answer rest Hb HL Hc Hrd); [reflexivity|].
  rewrite Hrd, length_app.
  pose proof (line_items_length (banner ++ [L])) as Hlen.
  rewrite length_app in Hlen. simpl in Hlen. lia.
Qed.

Lemma prompt_loop_skips_other_lines_witness :
  let conn := {| rd := line_items [str "Welcome"; str "host login: ";
                                   str "Password:"];
                 rd_end := ErrNew (str "EOF"); wlog := [];
                 closed := false |} in
  waitPrompt conn (str "login:") (str "alice")
    = (Fprintf (set_rd conn (line_items [str "Password:"]))
         (str "alice" ++ [newline]), None).
Proof.
  intros conn.
  apply (@prompt_loop_skips_other_lines conn [str "Welcome"]
           (str "host login: ") (str "login:") (str "alice")
           (line_items [str "Password:"])).
  - constructor; [|constructor]. split; [|reflexivity].
    simpl. intros [H|[H|[H|[H|[H|[H|[H|[]]]]]]]]; discriminate.
  - simpl. repeat (intros [H|H]; [discriminate | revert H]). intros [].
  - reflexivity.
  - reflexivity.
Defined.

(** The output loop appends the lines that arrive whole. *)
Lemma outputLoop_lines (lines : list gostring) (fuel : nat) (conn : Conn)
    (acc frag : gostring) (e : error) (rest : list Item) :
  Forall (fun l => ~ In newline l) lines ->
  ~ In newline frag ->
  rd conn = line_items lines ++ map Data frag ++ Fail e :: rest ->
  List.length lines < fuel ->
  outputLoop fuel conn acc
    = Some (set_rd conn rest,
            acc ++ List.concat (map (fun l => l ++ [newline]) lines)).
Proof.
  intros Hl Hf. revert fuel conn acc.
  induction Hl as [|l lines Hno _ IH]; intros fuel conn acc Hrd Hlen.
  - destruct fuel as [|fuel]; [simpl in Hlen; lia|].
    change (line_items [] ++ map Data frag ++ Fail e :: rest)
      with (map Data frag ++ Fail e :: rest) in Hrd.
    rewrite outputLoop_step. unfold ReadString. rewrite Hrd.
    rewrite (proj1 (@ReadString_from_fragment frag e rest (rd_end conn)
                      newline [] Hf)).
    simpl. now rewrite app_nil_r.
  - destruct fuel as [|fuel]; [simpl in Hlen; lia|].
    rewrite line_items_cons, <- app_assoc in Hrd.
    rewrite outputLoop_step, (@ReadString_line conn l _ Hrd Hno).
    rewrite (IH fuel (set_rd conn (line_items lines ++ map Data frag
                                   ++ Fail e :: rest))
               (acc ++ l ++ [newline])).
    + simpl. now rewrite <- !app_assoc.
    + reflexivity.
    + simpl in Hlen. lia.
Qed.

(** X19.  The output the plain-line variant compares is made of whole
    lines only: the lines that arrive before the first failing read are
    gathered with their line feeds, and what has arrived of a last line
    without a line feed (a shell prompt, say) is dropped. *)
Theorem output_keeps_whole_lines (conn : Conn) (lines : list gostring)
    (frag : gostring) (e : error) (rest : list Item) :
  Forall (fun l => ~ In newline l) lines ->
  ~ In newline frag ->
  rd conn = line_items lines ++ map Data frag ++ Fail e :: rest ->
  readOutput conn
    = (set_rd conn rest, List.concat (map (fun l => l ++ [newline]) lines)).
Proof.
  intros Hl Hf Hrd. unfold readOutput.
  rewrite (@outputLoop_lines lines (S (List.length (rd conn))) conn [] frag e
             rest Hl Hf Hrd); [reflexivity|].
  rewrite Hrd, length_app.
  pose proof (line_items_length lines). lia.
Qed.

Lemma output_keeps_whole_lines_witness :
  let conn := {| rd := line_items [str "alice"] ++ map Data (str "$ ")
                       ++ [Fail Scenario.timeout];
                 rd_end := ErrNew (str "EOF"); wlog := [];
                 closed := false |} in
  readOutput conn = (set_rd conn [], str "alice" ++ [newline]).
Proof.
  intros conn.
  apply (@output_keeps_whole_lines conn [str "alice"] (str "$ ")
           Scenario.timeout []).
  - constructor; [|constructor].
    simpl. intros [H|[H|[H|[H|[H|[]]]]]]; discriminate.
  - simpl. intros [H|[H|[]]]; discriminate.
  - reflexivity.
Defined.

Lemma promptLoop_error (fuel : nat) (conn c' : Conn) (prompt answer : gostring)
    (e : error) :
  promptLoop fuel conn prompt answer = Some (c', Some e) ->
  e = Errorf (str "context deadline is not set").
Proof.
  revert conn. induction fuel as [|fuel IH]; intros conn H; [discriminate|].
  rewrite promptLoop_step in H.
  destruct (ReadString conn newline) as [[c1 line] e1].
  destruct e1.
  - now injection H as _ <-.
  - destruct (Contains line prompt); [discriminate | now apply IH with c1].
Qed.

Lemma waitPrompt_error (conn c' : Conn) (prompt answer : gostring)
    (e : error) :
  waitPrompt conn prompt answer = (c', Some e) ->
  e = Errorf (str "context deadline is not set").
Proof.
  intros H. pose proof (waitPrompt_total conn prompt answer) as Ht.
  rewrite H in Ht. exact (promptLoop_error _ _ _ _ Ht).
Qed.

(** The lines of a plain-line exchange, in order. *)
Lemma plain_exchange_trace (conf : Schema) (conn c' : Conn)
    (err : option error) :
  exchange conf conn = (err, c') ->
  exists k,
    wlog c' = wlog conn ++ firstn k [Username conf ++ [newline];
                                     Password conf ++ [newline];
                                     Command conf ++ [newline]] /\
    (err = None -> k = 3) /\
    (err = Some (Errorf (str "Login failed")) -> k = 2).
Proof.
  unfold exchange.
  destruct (waitPrompt conn (str "login:") (Username conf)) as [k1 e1] eqn:E1.
  pose proof (waitPrompt_wlog _ _ _ E1) as W1.
  destruct e1 as [e1|].
  { rewrite (waitPrompt_error _ _ _ E1).
    intros H. injection H as <- <-. exists 0.
    split; [exact W1 | split; discriminate]. }
  destruct (waitPrompt k1 (str "Password:") (Password conf)) as [k2 e2] eqn:E2.
  pose proof (waitPrompt_wlog _ _ _ E2) as W2.
  destruct e2 as [e2|].
  { rewrite (waitPrompt_error _ _ _ E2).
    intros H. injection H as <- <-. exists 1.
    rewrite W2, W1, <- app_assoc. split; [reflexivity | split; discriminate]. }
  destruct (ReadString k2 newline) as [[k3 line] e3] eqn:E3.
  destruct (ReadString_frame _ _ E3) as [W3 _].
  assert (W : wlog k3 = wlog conn ++ [Username conf ++ [newline];
                                      Password conf ++ [newline]]).
  { rewrite W3, W2, W1, <- app_assoc. reflexivity. }
  destruct e3.
  { intros H. injection H as <- <-. exists 2.
    split; [exact W | split; discriminate]. }
  destruct (Contains line (str "login:")).
  { intros H. injection H as <- <-. exists 2.
    split; [exact W | split; [discriminate | reflexivity]]. }
  cbv zeta.
  destruct (readOutput (Fprintf k3 (Command conf ++ [newline])))
    as [k4 result] eqn:E4.
  pose proof (readOutput_wlog _ E4) as W4. simpl in W4.
  assert (W' : wlog k4 = wlog conn ++ [Username conf ++ [newline];
                                       Password conf ++ [newline];
                                       Command conf ++ [newline]]).
  { rewrite W4, W, <- app_assoc. reflexivity. }
  destruct (negb (string_eqb (TrimSpace result)
                    (TrimSpace (ExpectedOutput conf)))).
  - intros H. injection H as <- <-. exists 3.
    split; [exact W' | split; [discriminate|]].
    intros H. simpl in H. discriminate H.
  - intros H. injection H as <- <-. exists 3.
    split; [exact W' | split; [reflexivity | discriminate]].
Qed.

(** X20.  Once the dial has succeeded, the plain-line [Run] writes
    nothing but the first [k] of user name line, password line, command
    line, in this order and each ended by a line feed: all three when
    it returns no error, and exactly the first two when it returns
    "Login failed"; and the connection is closed. *)
Theorem plain_lines_in_order
    (Unmarshal : gostring -> Schema + error) (dial : gostring -> Conn + error)
    (ctx : Context) (config : gostring) (conf : Schema) (d : Z) (c0 : Conn) :
  Unmarshal config = inl conf ->
  ctx_deadline ctx = Some d ->
  dial (JoinHostPort (Server conf) (Itoa (Port conf))) = inl c0 ->
  exists err cfin k,
    Run Unmarshal dial ctx config
      = (err, Connected (JoinHostPort (Server conf) (Itoa (Port conf))) cfin)
    /\ wlog cfin = wlog c0 ++ firstn k [Username conf ++ [newline];
                                        Password conf ++ [newline];
                                        Command conf ++ [newline]]
    /\ (err = None -> k = 3)
    /\ (err = Some (Errorf (str "Login failed")) -> k = 2)
    /\ closed cfin = true.
Proof.
  intros HU Hd Hdial. unfold Run. rewrite HU, Hd. cbv zeta. rewrite Hdial.
  destruct (exchange conf c0) as [err c'] eqn:HX.
  destruct (plain_exchange_trace _ _ HX) as [k [W [H3 H2]]].
  exists err, (Close c'), k. repeat split; auto.
Qed.

Lemma plain_lines_in_order_witness :
  exists err cfin k,
    Run Scenario.plain_Unmarshal Scenario.plain_dial_rejecting Scenario.ctx []
      = (err, Connected (str "host:23") cfin)
    /\ wlog cfin = [] ++ firstn k [str "alice" ++ [newline];
                                   str "secret" ++ [newline];
                                   str "whoami" ++ [newline]]
    /\ (err = None -> k = 3)
    /\ (err = Some (Errorf (str "Login failed")) -> k = 2)
    /\ closed cfin = true.
Proof.
  exact (@plain_lines_in_order
           Scenario.plain_Unmarshal Scenario.plain_dial_rejecting
           Scenario.ctx [] Scenario.plain_conf 30%Z
           Scenario.plain_peer_rejecting eq_refl eq_refl eq_refl).
Defined.

Lemma TrimLeftSpace_spaces (s : gostring) :
  Forall (fun b => asciiSpace b = true) s -> TrimLeftSpace s = [].
Proof.
  induction 1 as [|b s Hb _ IH]; [reflexivity|]. simpl. now rewrite Hb.
Qed.

Lemma TrimSpace_spaces (s : gostring) :
  Forall (fun b => asciiSpace b = true) s -> TrimSpace s = [].
Proof.
  intros H. unfold TrimSpace. now rewrite (TrimLeftSpace_spaces H).
Qed.

(** X21.  When the exchange reaches the comparison with an output that
    is empty or made of ASCII white space only (no whole line of output
    arrived, or only blank lines) and the expected output is empty or
    ASCII white space only, the plain-line [Run] returns no error. *)
Theorem blank_output_matches_blank_expectation
    (Unmarshal : gostring -> Schema + error) (dial : gostring -> Conn + error)
    (ctx : Context) (config : gostring) (conf : Schema) (d : Z)
    (c0 c1 c2 c3 c4 : Conn) (line result : gostring) :
  Unmarshal config = inl conf ->
  ctx_deadline ctx = Some d ->
  dial (JoinHostPort (Server conf) (Itoa (Port conf))) = inl c0 ->
  waitPrompt c0 (str "login:") (Username conf) = (c1, None) ->
  waitPrompt c1 (str "Password:") (Password conf) = (c2, None) ->
  ReadString c2 newline = (c3, line, None) ->
  Contains line (str "login:") = false ->
  readOutput (Fprintf c3 (Command conf ++ [newline])) = (c4, result) ->
  Forall (fun b => asciiSpace b = true) result ->
  Forall (fun b => asciiSpace b = true) (ExpectedOutput conf) ->
  Run Unmarshal dial ctx config
    = (None, Connected (JoinHostPort (Server conf) (Itoa (Port conf)))
               (Close c4)).
Proof.
  intros HU Hd Hdial H1 H2 H3 Hc H4 Hr He.
  unfold Run. rewrite HU, Hd. cbv zeta. rewrite Hdial.
  unfold exchange.
  rewrite H1. cbv beta iota. rewrite H2. cbv beta iota.
  rewrite H3. cbv beta iota. rewrite Hc. cbv zeta. rewrite H4.
  cbv beta iota.
  now rewrite (TrimSpace_spaces Hr), (TrimSpace_spaces He).
Qed.

Lemma blank_output_matches_blank_expectation_witness :
  let conf := {| Server := str "host"; Port := 23%Z;
                 Username := str "alice"; Password := str "secret";
                 Command := str "true"; ExpectedOutput := str " " |} in
  let peer := {| rd := line_items [str "login:"; str "Password:";
                                   str "Welcome"; []]
                       ++ map Data (str "$ ") ++ [Fail Scenario.timeout];
                 rd_end := ErrNew (str "EOF"); wlog := [];
                 closed := false |} in
  fst (Run (fun _ => inl conf) (fun _ => inl peer) Scenario.ctx []) = None.
Proof.
  intros conf peer.
  erewrite (@blank_output_matches_blank_expectation
              (fun _ => inl conf) (fun _ => inl peer) Scenario.ctx [] conf
              30%Z peer);
    try (vm_compute; reflexivity).
  - repeat constructor.
  - repeat constructor.
Defined.

End PlainLineMore.

(* ================================================================== *)
(** * Validate                                                         *)
(* ================================================================== *)

Section ValidateFacts.
Import Go.

Lemma string_eqb_nil (s : gostring) :
  string_eqb s [] = false <-> s <> [].
Proof.
  rewrite <- string_eqb_eq. destruct (string_eqb s []); split; congruence.
Qed.

Lemma port_out_of_range (p : Z) :
  ((p <=? 0)%Z || (65535 <? p)%Z) = false <-> (1 <= p <= 65535)%Z.
Proof.
  rewrite orb_false_iff, Z.leb_gt, Z.ltb_ge. lia.
Qed.

(** X22.  [Validate] of package telnet accepts a configuration exactly
    when it decodes, server, user name, password and command are not
    empty and the port lies in 1..65535.  The expected output is not
    looked at, and the password is required although [Run] of this
    package never sends it. *)
Theorem Validate_accepts_iff
    (Unmarshal : gostring -> Telnet.Schema + error)
    (Quote : gostring -> gostring) (config : gostring) :
  Telnet.Validate Unmarshal Quote config = None <->
  exists conf,
    Unmarshal config = inl conf /\
    Telnet.Server conf <> [] /\
    (1 <= Telnet.Port conf <= 65535)%Z /\
    Telnet.Username conf <> [] /\
    Telnet.Password conf <> [] /\
    Telnet.Command conf <> [].
Proof.
  unfold Telnet.Validate. destruct (Unmarshal config) as [conf|e].
  - destruct (string_eqb (Telnet.Server conf) []) eqn:Hs.
    { apply string_eqb_eq in Hs. split; [discriminate|].
      intros [c [Hc [H _]]]. injection Hc as <-. contradiction. }
    destruct ((Telnet.Port conf <=? 0)%Z || (65535 <? Telnet.Port conf)%Z)
      eqn:Hp.
    { split; [discriminate|].
      intros [c [Hc [_ [H _]]]]. injection Hc as <-.
      apply port_out_of_range in H. congruence. }
    destruct (string_eqb (Telnet.Username conf) []) eqn:Hu.
    { apply string_eqb_eq in Hu. split; [discriminate|].
      intros [c [Hc [_ [_ [H _]]]]]. injection Hc as <-. contradiction. }
    destruct (string_eqb (Telnet.Password conf) []) eqn:Hw.
    { apply string_eqb_eq in Hw. split; [discriminate|].
      intros [c [Hc [_ [_ [_ [H _]]]]]]. injection Hc as <-. contradiction. }
    destruct (string_eqb (Telnet.Command conf) []) eqn:Hc.
    { apply string_eqb_eq in Hc. split; [discriminate|].
      intros [c [Hc' [_ [_ [_ [_ H]]]]]]. injection Hc' as <-. contradiction. }
    split; [|reflexivity]. intros _. exists conf.
    apply string_eqb_nil in Hs, Hu, Hw, Hc. apply port_out_of_range in Hp.
    now repeat split.
  - split; [discriminate|]. intros [c [Hc _]]. discriminate.
Qed.

(** X23.  What [Validate] reports: an error of the decoder is returned
    as it is; otherwise the checks run in the order server, port, user
    name, password, command and the first that fails gives the error,
    whatever the fields after it hold.  A port outside 1..65535 is
    shown in decimal in the message. *)
Theorem Validate_reports_first_failure
    (Unmarshal : gostring -> Telnet.Schema + error)
    (Quote : gostring -> gostring) (config : gostring) :
  (forall e, Unmarshal config = inr e ->
     Telnet.Validate Unmarshal Quote config = Some e) /\
  (forall conf, Unmarshal config = inl conf ->
     (Telnet.Server conf = [] ->
      Telnet.Validate Unmarshal Quote config
        = Some (Errorf (str "server is required; got " ++ Quote []))) /\
     (Telnet.Server conf <> [] ->
      ~ (1 <= Telnet.Port conf <= 65535)%Z ->
      Telnet.Validate Unmarshal Quote config
        = Some (Errorf (str "port must be between 1 and 65535; got "
                        ++ Itoa (Telnet.Port conf)))) /\
     (Telnet.Server conf <> [] ->
      (1 <= Telnet.Port conf <= 65535)%Z ->
      Telnet.Username conf = [] ->
      Telnet.Validate Unmarshal Quote config
        = Some (Errorf (str "username is required; got " ++ Quote []))) /\
     (Telnet.Server conf <> [] ->
      (1 <= Telnet.Port conf <= 65535)%Z ->
      Telnet.Username conf <> [] ->
      Telnet.Password conf = [] ->
      Telnet.Validate Unmarshal Quote config
        = Some (Errorf (str "password is required; got " ++ Quote []))) /\
     (Telnet.Server conf <> [] ->
      (1 <= Telnet.Port conf <= 65535)%Z ->
      Telnet.Username conf <> [] ->
      Telnet.Password conf <> [] ->
      Telnet.Command conf = [] ->
      Telnet.Validate Unmarshal Quote config
        = Some (Errorf (str "command is required; got " ++ Quote [])))).
Proof.
  split.
  - intros e HU. unfold Telnet.Validate. now rewrite HU.
  - intros conf HU. unfold Telnet.Validate. rewrite HU.
    repeat split.
    + intros ->. reflexivity.
    + intros Hs Hp. apply string_eqb_nil in Hs. rewrite Hs.
      destruct ((Telnet.Port conf <=? 0)%Z || (65535 <? Telnet.Port conf)%Z)
        eqn:E; [reflexivity|].
      apply port_out_of_range in E. contradiction.
    + intros Hs Hp Hu. apply string_eqb_nil in Hs.
      apply port_out_of_range in Hp. rewrite Hs, Hp, Hu. reflexivity.
    + intros Hs Hp Hu Hw. apply string_eqb_nil in Hs, Hu.
      apply port_out_of_range in Hp. rewrite Hs, Hp, Hu, Hw. reflexivity.
    + intros Hs Hp Hu Hw Hc. apply string_eqb_nil in Hs, Hu, Hw.
      apply port_out_of_range in Hp. rewrite Hs, Hp, Hu, Hw, Hc. reflexivity.
Qed.

Lemma Validate_reports_first_failure_witness :
  let conf := {| Telnet.Server := str "host"; Telnet.Port := 70000%Z;
                 Telnet.Username := []; Telnet.Password := [];
                 Telnet.Command := []; Telnet.ExpectedOutput := [] |} in
  Telnet.Validate (fun _ => inl conf) (fun s => s) []
    = Some (Errorf (str "port must be between 1 and 65535; got 70000")).
Proof.
  intros conf.
  apply (proj1 (proj2 (proj2 (@Validate_reports_first_failure
                                (fun _ => inl conf) (fun s => s) [])
                         conf eq_refl))).
  - discriminate.
  - simpl. lia.
Defined.

(** X24.  The two packages validate alike: on the same decoded fields
    [Validate] of package ssh returns what [Validate] of package telnet
    returns. *)
Theorem Validate_of_both_packages_agree
    (Unmarshal : gostring -> Telnet.Schema + error)
    (Quote : gostring -> gostring) (config : gostring) :
  PlainLine.Validate
    (fun c => match Unmarshal c with
              | inl conf => inl (PlainLine.of_telnet conf)
              | inr e => inr e
              end)
    Quote config
  = Telnet.Validate Unmarshal Quote config.
Proof.
  unfold PlainLine.Validate, Telnet.Validate.
  now destruct (Unmarshal config).
Qed.

End ValidateFacts.

(* ================================================================== *)
(** * A prompt that never comes                                        *)
(* ================================================================== *)

Section PromptTimeout.
Import Go Telnet.

Lemma Contains_firstn (s t : gostring) (k : nat) :
  Contains (firstn k s) t = true -> Contains s t = true.
Proof.
  intros H. rewrite <- (firstn_skipn k s). now apply Contains_app_l.
Qed.

(** The bytes [pre] hold no target and then a read fails. *)
Lemma readUntilAny_plain_failure (conn : Conn) (targets : list gostring)
    (pre : gostring) (e : error) (rest : list ReadEv) :
  rd conn = map delivered pre ++ failed e :: rest ->
  ~ In IAC pre ->
  (forall t, In t targets -> Contains pre t = false) ->
  readUntilAny conn targets
    = (set_rd conn rest, pre, Some (readError targets e)).
Proof.
  intros Hrd Hiac Hno.
  assert (Hk : forall k, 0 < k <= List.length pre ->
                 forall t, In t targets -> Contains (firstn k pre) t = false).
  { intros k _ t Ht. destruct (Contains (firstn k pre) t) eqn:E; [|reflexivity].
    apply Contains_firstn in E. rewrite (Hno t Ht) in E. discriminate. }
  pose proof (readUntilAny_plain conn targets pre _ Hrd Hiac Hk) as H.
  rewrite (@loop_no_byte _ (set_rd conn (failed e :: rest)) targets pre
             (failed e) rest eq_refl eq_refl) in H.
  now injection H.
Qed.

(** X25.  The login prompt never comes: the peer sends bytes without
    "ogin:" in them and then a read fails with [e] (the deadline has
    passed, say).  [Run] returns an error whose message names the step,
    the awaited target and the text of [e]; nothing was written, and
    the connection is closed. *)
Theorem login_prompt_timeout
    (Unmarshal : gostring -> Schema + error) (dial : gostring -> Conn + error)
    (ctx : Context) (config : gostring) (conf : Schema) (d : Z) (c0 : Conn)
    (pre : gostring) (e : error) (rest : list ReadEv) :
  Unmarshal config = inl conf ->
  ctx_deadline ctx = Some d ->
  dial (Server conf ++ str ":" ++ Itoa (Port conf)) = inl c0 ->
  rd c0 = map delivered pre ++ failed e :: rest ->
  ~ In IAC pre ->
  Contains pre (str "ogin:") = false ->
  Run Unmarshal dial ctx config
    = (Some (Errorf (str "failed waiting for login prompt: read error waiting for [ogin:]: "
                     ++ Error e)),
       Connected (Server conf ++ str ":" ++ Itoa (Port conf))
         (Close (SetDeadline (set_rd c0 rest) d))).
Proof.
  intros HU Hd Hdial Hrd Hiac Hno.
  unfold Run. rewrite HU, Hd. cbv zeta. rewrite Hdial.
  unfold exchange. cbv zeta.
  rewrite (@readUntilAny_plain_failure (SetDeadline c0 d) [str "ogin:"] pre e
             rest Hrd Hiac).
  - reflexivity.
  - intros t [<-|[]]. exact Hno.
Qed.

Lemma login_prompt_timeout_witness :
  let peer := fresh (map delivered (str "Linux 6.1") ++ [failed Scenario.timeout])
  in
  Run Scenario.telnet_Unmarshal (fun _ => inl peer) Scenario.ctx []
    = (Some (Errorf (str "failed waiting for login prompt: read error waiting for [ogin:]: i/o timeout")),
       Connected (str "host:23") (Close (SetDeadline (set_rd peer []) 30))).
Proof.
  intros peer.
  apply (@login_prompt_timeout
           Scenario.telnet_Unmarshal (fun _ => inl peer) Scenario.ctx []
           Scenario.telnet_conf 30%Z peer (str "Linux 6.1") Scenario.timeout
           [] eq_refl eq_refl eq_refl eq_refl).
  - simpl. repeat (intros [H|H]; [discriminate | revert H]). intros [].
  - reflexivity.
Defined.

End PromptTimeout.
